(** * billing_tools: the text-to-record parser of [tools.py]

    A shallow embedding of [parse_notes] and of the part of Python's [re]
    and [str] that it calls, followed by the properties of the parser. *)

From Stdlib Require Import String Ascii.
From Stdlib Require Import List Arith NArith Bool Lia DecimalString.
Import ListNotations.

(** ** Python strings

    A Python [str] is a sequence of Unicode code points. *)

Definition char : Type := N.
Definition str : Type := list char.

(** A literal of the source, written as a Rocq string of ASCII characters. *)
Definition py (s : string) : str := map N_of_ascii (list_ascii_of_string s).
Arguments py s%_string.

(** [str.isspace] on one character; the same set is used by [str.strip]
    and by the class [\s] of a [str] pattern. *)
Definition isspace (c : char) : bool :=
  ((0x09 <=? c) && (c <=? 0x0D) || (0x1C <=? c) && (c <=? 0x20)
   || (c =? 0x85) || (c =? 0xA0) || (c =? 0x1680)
   || (0x2000 <=? c) && (c <=? 0x200A)
   || (c =? 0x2028) || (c =? 0x2029) || (c =? 0x202F) || (c =? 0x205F)
   || (c =? 0x3000))%N.

Fixpoint drop_while (p : char -> bool) (s : str) : str :=
  match s with
  | [] => []
  | x :: s' => if p x then drop_while p s' else s
  end.

Fixpoint take_while (p : char -> bool) (s : str) : str :=
  match s with
  | [] => []
  | x :: s' => if p x then x :: take_while p s' else []
  end.

Definition lstrip (s : str) : str := drop_while isspace s.
Definition rstrip (s : str) : str := rev (drop_while isspace (rev s)).

(** [s.strip()] *)
Definition strip (s : str) : str := rstrip (lstrip s).

(** Truth value of a string: [not s] holds for the empty string only. *)
Definition is_empty (s : str) : bool :=
  match s with [] => true | _ :: _ => false end.

Fixpoint starts_with (m s : str) : bool :=
  match m, s with
  | [], _ => true
  | c :: m', x :: s' => (x =? c)%N && starts_with m' s'
  | _ :: _, [] => false
  end.

(** [m] occurs in [s] as a substring. *)
Definition occurs (m s : str) : Prop := exists pre post, s = pre ++ m ++ post.

(** ** The fragment of [re] used by the patterns of [parse_notes] *)

Inductive regex : Type :=
| Eps
| Chr (c : char)
| Cat (r1 r2 : regex)
| Alt (r1 r2 : regex)
| Opt (r : regex)
| Rep (p : char -> bool) (lo : nat) (hi : option nat)
| Grp (r : regex)
| Look (r : regex).

Definition seq (rs : list regex) : regex := fold_right Cat Eps rs.
Definition lit (s : str) : regex := seq (map Chr s).

(** Character classes of the patterns. *)
Definition digit (c : char) : bool := ((0x30 <=? c) && (c <=? 0x39))%N.
Definition none_of (l : list char) (c : char) : bool :=
  negb (existsb (N.eqb c) l).

(** [re.IGNORECASE] on a [str] pattern, for an ASCII pattern character [c]:
    the text character [x] is accepted when it is [c] in either ASCII case;
    the letters i, s and k also accept U+0130 and U+0131, U+017F, U+212A. *)
Definition ascii_lower (c : char) : char :=
  if ((0x41 <=? c) && (c <=? 0x5A))%N then (c + 32)%N else c.

Definition ieq (c x : char) : bool :=
  let lc := ascii_lower c in
  ((ascii_lower x =? lc)
   || (lc =? 0x69) && ((x =? 0x130) || (x =? 0x131))
   || (lc =? 0x73) && (x =? 0x17F)
   || (lc =? 0x6B) && (x =? 0x212A))%N.

Definition chr_eq (ic : bool) (c x : char) : bool :=
  if ic then ieq c x else (x =? c)%N.

(** State of a match in progress: the text still to read and the text of
    group 1, if the group has taken part. *)
Definition mstate : Type := str * option str.
Definition cont : Type := str -> option str -> option mstate.

Definition accept : cont := fun s g => Some (s, g).

Definition may_take (hi : option nat) : bool :=
  match hi with Some O => false | _ => true end.

(** Greedy repetition of a one-character class: take a character when
    allowed, and give it back when the rest of the pattern fails. *)
Fixpoint rep_greedy (p : char -> bool) (lo : nat) (hi : option nat)
    (s : str) (g : option str) (k : cont) : option mstate :=
  let stop := match lo with O => k s g | S _ => None end in
  match s with
  | x :: s' =>
      if p x && may_take hi then
        match rep_greedy p (pred lo) (option_map pred hi) s' g k with
        | Some m => Some m
        | None => stop
        end
      else stop
  | [] => stop
  end.

(** Backtracking match of [r] at the head of [s]; [k] is the rest of the
    pattern. Alternatives are tried left to right, quantifiers are greedy.
    [ic] is [re.IGNORECASE]; it changes literal characters only, the
    classes of these patterns ([\s], [[0-9]]) hold no cased character. *)
Fixpoint rmatch (ic : bool) (r : regex) (s : str) (g : option str) (k : cont)
    : option mstate :=
  match r with
  | Eps => k s g
  | Chr c =>
      match s with
      | x :: s' => if chr_eq ic c x then k s' g else None
      | [] => None
      end
  | Cat r1 r2 => rmatch ic r1 s g (fun s' g' => rmatch ic r2 s' g' k)
  | Alt r1 r2 =>
      match rmatch ic r1 s g k with
      | Some m => Some m
      | None => rmatch ic r2 s g k
      end
  | Opt r1 =>
      match rmatch ic r1 s g k with
      | Some m => Some m
      | None => k s g
      end
  | Rep p lo hi => rep_greedy p lo hi s g k
  | Grp r1 =>
      rmatch ic r1 s g
        (fun s' _ => k s' (Some (firstn (length s - length s') s)))
  | Look r1 =>
      match rmatch ic r1 s g accept with
      | Some (_, g') => k s g'
      | None => None
      end
  end.

(** The match object, as far as [parse_notes] reads it: [m.group(1)]. *)
Record Match : Type := { group1 : option str }.

(** [re.search]: the match at the leftmost offset that has one. *)
Fixpoint re_search (ic : bool) (r : regex) (s : str) : option Match :=
  match rmatch ic r s None accept with
  | Some (_, g) => Some {| group1 := g |}
  | None =>
      match s with
      | [] => None
      | _ :: s' => re_search ic r s'
      end
  end.

Definition matches_at (r : regex) (s : str) : bool :=
  match rmatch false r s None accept with Some _ => true | None => false end.

(** [re.split] (Python 3.7 and later, where empty matches split) for a
    pattern that only looks ahead: every match is empty, so each offset
    is tested once and the text is cut in front of every offset that
    matches. [cur] is the text since the last cut. *)
Fixpoint split_from (r : regex) (cur s : str) : list str :=
  match s with
  | [] => if matches_at r [] then [cur; []] else [cur]
  | x :: s' =>
      if matches_at r s then cur :: split_from r [x] s'
      else split_from r (cur ++ [x]) s'
  end.

Definition re_split (r : regex) (s : str) : list str := split_from r [] s.

(** ** Exceptions *)

Inductive exn : Type := AttributeError.

Inductive result (A : Type) : Type :=
| Ok (a : A)
| Raise (e : exn).
Arguments Ok {A} a.
Arguments Raise {A} e.

Definition bind {A B : Type} (m : result A) (f : A -> result B) : result B :=
  match m with
  | Ok a => f a
  | Raise e => Raise e
  end.

Notation "x <- m ;; f" := (bind m (fun x => f))
  (at level 61, m at next level, right associativity).

(** ** [parse_notes] *)

Definition marker : str := py "Client:".

(** [r"(?=Client:)"] *)
Definition split_re : regex := Look (lit marker).

(** [r"Client:\s*([^\n,]+)"] *)
Definition client_re : regex :=
  seq [lit (py "Client:"); Rep isspace 0 None;
       Grp (Rep (none_of [10; 44]%N) 1 None)].

(** [r"Rendering Provider:\s*([^\n]+)"] *)
Definition provider_re : regex :=
  seq [lit (py "Rendering Provider:"); Rep isspace 0 None;
       Grp (Rep (none_of [10]%N) 1 None)].

(** [[0-9]{4}/[0-9]{2}/[0-9]{2}] *)
Definition date_shape_re : regex :=
  seq [Rep digit 4 (Some 4); Chr 47%N; Rep digit 2 (Some 2); Chr 47%N;
       Rep digit 2 (Some 2)].

(** [r"Date:\s*([0-9]{4}/[0-9]{2}/[0-9]{2})"] *)
Definition date_re : regex :=
  seq [lit (py "Date:"); Rep isspace 0 None; Grp date_shape_re].

(** [[0-9]{1,2}:[0-9]{2}\s*(?:AM|PM)?] *)
Definition clock_re : regex :=
  seq [Rep digit 1 (Some 2); Chr 58%N; Rep digit 2 (Some 2);
       Rep isspace 0 None; Opt (Alt (lit (py "AM")) (lit (py "PM")))].

(** The time range: two clock times around a dash. *)
Definition range_re : regex :=
  seq [clock_re; Rep isspace 0 None; Chr 45%N; Rep isspace 0 None; clock_re].

(** [r"Session Time:\s*(?:(range)|-)?"], compiled with [re.IGNORECASE] *)
Definition session_re : regex :=
  seq [lit (py "Session Time:"); Rep isspace 0 None;
       Opt (Alt (Grp range_re) (Chr 45%N))].

(** One row of the result: the dict appended by [parse_notes]. [Date] is
    [date_match.group(1)] as it comes, so it is a string or [None]. *)
Record Record_ : Type := {
  Client : str;
  Rendering_Provider : str;
  Date : option str;
  Session_Time : str
}.

(** [m.group(1).strip() if m else ""] *)
Definition group1_strip (m : option Match) : result str :=
  match m with
  | Some m =>
      match group1 m with
      | Some s => Ok (strip s)
      | None => Raise AttributeError
      end
  | None => Ok []
  end.

(** [client_name], [provider], [date_value] and [session_time] of the
    loop body, as functions of the stripped block. *)
Definition client_name_of (block : str) : result str :=
  group1_strip (re_search false client_re block).

Definition provider_of (block : str) : result str :=
  group1_strip (re_search false provider_re block).

(** [date_match.group(1) if date_match else ""] *)
Definition date_of (block : str) : option str :=
  match re_search false date_re block with
  | Some m => group1 m
  | None => Some []
  end.

(** [group(1)] of the match, or [""] when the group is [None] or nothing
    matched. *)
Definition session_time_of (block : str) : str :=
  match re_search true session_re block with
  | Some m =>
      match group1 m with
      | Some s => s
      | None => []
      end
  | None => []
  end.

(** The body of the [for] loop: [Ok None] is [continue], [Ok (Some r)] is
    the row that is appended. *)
Definition process_block (block : str) : result (option Record_) :=
  let block := strip block in
  if is_empty block then Ok None
  else
    client_name <- client_name_of block ;;
    if is_empty client_name then Ok None
    else
      provider <- provider_of block ;;
      let date_value := date_of block in
      let session_time := session_time_of block in
      Ok (Some {| Client := client_name;
                  Rendering_Provider := provider;
                  Date := date_value;
                  Session_Time := session_time |}).

(** [for block in blocks], with [results] as it grows. *)
Fixpoint loop (blocks : list str) (results : list Record_)
    : result (list Record_) :=
  match blocks with
  | [] => Ok results
  | block :: rest =>
      o <- process_block block ;;
      match o with
      | None => loop rest results
      | Some r => loop rest (results ++ [r])
      end
  end.

Definition parse_notes (text : str) : result (list Record_) :=
  loop (re_split split_re text) [].

(** ** Vocabulary of the properties *)

Definition LF : str := [10%N].

(** [m] occurs in [b] at offset 0 or not at all. *)
Definition only_at_head (m b : str) : Prop :=
  forall pre post, b = pre ++ m ++ post -> pre = [].

(** [contains m s]: [m in s] *)
Fixpoint contains (m s : str) : bool :=
  starts_with m s
  || match s with [] => false | _ :: s' => contains m s' end.

(** Reading a literal: the text left after it, when the head of [s]
    matches [m] character by character. *)
Fixpoint strip_lit (ic : bool) (m s : str) : option str :=
  match m, s with
  | [], _ => Some s
  | c :: m', x :: s' => if chr_eq ic c x then strip_lit ic m' s' else None
  | _ :: _, [] => None
  end.

(** Number of characters a greedy repetition takes at first. *)
Fixpoint run_len (p : char -> bool) (hi : option nat) (s : str) : nat :=
  match s with
  | x :: s' =>
      if p x && may_take hi then S (run_len p (option_map pred hi) s') else O
  | [] => O
  end.

(** [x] is refused by every character test of [r]. *)
Fixpoint rejects (ic : bool) (r : regex) (x : char) : bool :=
  match r with
  | Eps => true
  | Chr c => negb (chr_eq ic c x)
  | Cat r1 r2 | Alt r1 r2 => rejects ic r1 x && rejects ic r2 x
  | Opt r1 | Grp r1 | Look r1 => rejects ic r1 x
  | Rep p _ _ => negb (p x)
  end.

(** Two continuations give the same group after any shared prefix. *)
Definition agree (x x' : char) (v v' : str) (k k' : cont) : Prop :=
  forall u1 g1,
    option_map snd (k (u1 ++ x :: v) g1)
    = option_map snd (k' (u1 ++ x' :: v') g1).

(** The rows a block contributes: one or none. *)
Definition record_of (block : str) : list Record_ :=
  match process_block block with
  | Ok (Some r) => [r]
  | _ => []
  end.

(** [[^\n,]] *)
Definition name_char : char -> bool := none_of [10; 44]%N.

(** Four digits, a slash, two digits, a slash, two digits. *)
Definition date_shape (d : str) : bool :=
  match d with
  | [y1; y2; y3; y4; s1; m1; m2; s2; d1; d2] =>
      (digit y1 && digit y2 && digit y3 && digit y4 && (s1 =? 47)%N
       && digit m1 && digit m2 && (s2 =? 47)%N && digit d1 && digit d2)
  | _ => false
  end.

(** [d] is a date that follows [Date:] and whitespace at the head of [s]. *)
Definition date_here (s d : str) : Prop :=
  exists ws post,
    s = py "Date:" ++ ws ++ d ++ post
    /\ forallb isspace ws = true /\ date_shape d = true.

Definition session_marker : str := py "Session Time:".

(** What follows the marker in [session_re]. *)
Definition session_tail : regex :=
  seq [Rep isspace 0 None; Opt (Alt (Grp range_re) (Chr 45%N))].

(** The same ASCII text up to the case of its letters. *)
Definition same_ignoring_case (a b : str) : Prop :=
  map ascii_lower a = map ascii_lower b.

(** ** Sample texts *)

Definition jane_text : str :=
  py "Client: Jane Doe, ID 123" ++ LF ++ py "Rendering Provider: Dr. Smith"
  ++ LF ++ py "Date: 2024/01/15" ++ LF ++ py "Session Time: 9:00-10:00" ++ LF.

Definition jane_record : Record_ :=
  {| Client := py "Jane Doe";
     Rendering_Provider := py "Dr. Smith";
     Date := Some (py "2024/01/15");
     Session_Time := py "9:00-10:00" |}.

Definition name_on_next_line : str :=
  py "Client:" ++ LF ++ py "Jane Doe, ID 123".

Definition session_then_notes : str :=
  py "Client: A" ++ LF ++ py "Session Time: 9:00-10:00" ++ LF ++ py "Notes: ok".

Definition ann_first : str :=
  py "Client: Ann" ++ LF ++ py "Date: 2024/01/15" ++ LF.
Definition ann_second : str := py "Client: Ann" ++ LF ++ py "Date: 2024/02/20".

Definition ann_record (d : str) : Record_ :=
  {| Client := py "Ann"; Rendering_Provider := []; Date := Some d;
     Session_Time := [] |}.

Definition nameless_block : str := py "Client: , ID 7" ++ LF.

(** ** [pdf_bytes_to_text]

    The document is what [fitz.open] returns: its pages in order, each
    with the text [page.get_text] gives with the layout-preserving flags
    and without them. *)

Record Page : Type := {
  text_layout : str;
  text_plain : str
}.

Definition get_text (preserve_layout : bool) (page : Page) : str :=
  if preserve_layout then text_layout page else text_plain page.

(** [str(n)] for a non-negative integer. *)
Definition decimal (n : nat) : str :=
  py (NilEmpty.string_of_uint (Nat.to_uint n)).

(** [f"--- Page {page_num + 1} ---\n{text}\n\n"] *)
Definition page_chunk (page_num : nat) (text : str) : str :=
  py "--- Page " ++ decimal (page_num + 1) ++ py " ---" ++ LF
  ++ text ++ LF ++ LF.

(** [for page_num in range(total_pages)], with [all_text] as it grows;
    [pages] are the pages from [page_num] on. *)
Fixpoint pages_loop (preserve_layout : bool) (pages : list Page)
    (page_num : nat) (all_text : list str) : list str :=
  match pages with
  | [] => all_text
  | page :: rest =>
      let text := get_text preserve_layout page in
      pages_loop preserve_layout rest (S page_num)
        (all_text ++ [page_chunk page_num text])
  end.

Definition pdf_bytes_to_text (doc : list Page) (preserve_layout : bool) : str :=
  concat (pages_loop preserve_layout doc 0 []).

(** ** More vocabulary *)

(** Number of offsets of [s] at which [m] starts. *)
Fixpoint count_at (m s : str) : nat :=
  (if starts_with m s then 1 else 0)
  + match s with [] => 0 | _ :: s' => count_at m s' end.

(** The first place where the literal [m] is read in [s]: the text before
    it and the text after it. *)
Fixpoint first_lit (ic : bool) (m s : str) : option (str * str) :=
  match strip_lit ic m s with
  | Some rest => Some ([], rest)
  | None =>
      match s with
      | [] => None
      | x :: s' =>
          match first_lit ic m s' with
          | Some (pre, rest) => Some (x :: pre, rest)
          | None => None
          end
      end
  end.

Definition provider_marker : str := py "Rendering Provider:".

(** [[^\n]] *)
Definition line_char : char -> bool := none_of [10]%N.

(** The header line that starts the chunk of page [page_num]. *)
Definition page_header (page_num : nat) : str :=
  py "--- Page " ++ decimal (page_num + 1) ++ py " ---" ++ LF.

(** [h] is a prefix inside which no cut is made when [t] follows. *)
Definition cut_free (h t : str) : Prop :=
  forall h1 h2,
    h = h1 ++ h2 -> h2 <> [] -> starts_with marker (h2 ++ t) = false.

(** The rows of a text. *)
Definition rows (text : str) : list Record_ :=
  flat_map record_of (re_split split_re text).

Definition two_session_lines : str :=
  py "Client: A" ++ LF ++ py "session time: n/a" ++ LF
  ++ py "Session Time: 9:00-10:00".

(** The text of the pages from [page_num] on, chunk after chunk. *)
Fixpoint pages_text (preserve_layout : bool) (pages : list Page)
    (page_num : nat) : str :=
  match pages with
  | [] => []
  | page :: rest =>
      page_chunk page_num (get_text preserve_layout page)
      ++ pages_text preserve_layout rest (S page_num)
  end.

(** The rows of the page texts taken one by one, each page but the last
    with the blank line and the header of the next page behind it. *)
Fixpoint rows_by_page (texts : list str) (page_num : nat) : list Record_ :=
  match texts with
  | [] => []
  | t :: rest =>
      match rest with
      | [] => rows t
      | _ :: _ =>
          rows (t ++ LF ++ LF ++ page_header (S page_num))
          ++ rows_by_page rest (S page_num)
      end
  end.

Definition sample_page (t : str) : Page :=
  {| text_layout := t; text_plain := t |}.

(** ** Vocabulary for dates and time ranges *)

Definition date_marker : str := py "Date:".

(** The token at the head of [s]: its characters up to the first
    whitespace. *)
Definition token (s : str) : str :=
  take_while (fun c => negb (isspace c)) s.

Definition long_day_block : str :=
  py "Client: A" ++ LF ++ py "Date: 2024/01/155".

(** One clock time as written: hour, colon, minutes, then optional
    whitespace and AM or PM. *)
Record Clock : Type := {
  ck_hour : str;
  ck_minute : str;
  ck_space : str;
  ck_meridiem : str
}.

Definition hour (h : str) : bool :=
  match h with
  | [a] => digit a
  | [a; b] => digit a && digit b
  | _ => false
  end.

Definition minute (m : str) : bool :=
  match m with
  | [a; b] => digit a && digit b
  | _ => false
  end.

(** AM or PM, in any case of the letters. *)
Definition meridiem (a : str) : bool :=
  match a with
  | [x; y] =>
      ((ascii_lower x =? 97) || (ascii_lower x =? 112))%N
      && (ascii_lower y =? 109)%N
  | _ => false
  end.

Definition clock_text (c : Clock) : str :=
  ck_hour c ++ [58%N] ++ ck_minute c ++ ck_space c ++ ck_meridiem c.

(** A well-formed clock time; whitespace after the minutes belongs to it
    only when AM or PM follows. *)
Definition clock_ok (c : Clock) : bool :=
  hour (ck_hour c) && minute (ck_minute c)
  && (if is_empty (ck_meridiem c) then is_empty (ck_space c)
      else forallb isspace (ck_space c) && meridiem (ck_meridiem c)).

(** Two clock times around a dash, with whitespace [w2] and [w3] on the
    two sides of the dash. *)
Definition range_text (c1 : Clock) (w2 w3 : str) (c2 : Clock) : str :=
  clock_text c1 ++ w2 ++ [45%N] ++ w3 ++ clock_text c2.

(** [s] is empty or starts with a character that is neither a, A, p
    nor P. *)
Definition not_ap_start (s : str) : bool :=
  match s with
  | [] => true
  | x :: _ => negb ((ascii_lower x =? 97) || (ascii_lower x =? 112))%N
  end.

(** [s] is empty or starts with a character that is neither whitespace
    nor a, A, p, P. *)
Definition closed_start (s : str) : bool :=
  match s with
  | [] => true
  | x :: _ => negb (isspace x) && not_ap_start s
  end.

(** The range ends where its text ends: with AM or PM, or in front of a
    text that cannot continue it. *)
Definition range_end (c2 : Clock) (post : str) : bool :=
  negb (is_empty (ck_meridiem c2)) || closed_start post.

(** [(?:AM|PM)?] *)
Definition meridiem_re : regex := Opt (Alt (lit (py "AM")) (lit (py "PM"))).

(** ** Facts about strings *)

Lemma marker_chars : marker = [67; 108; 105; 101; 110; 116; 58]%N.
Proof. reflexivity. Qed.

Section TakeDrop.
Variable p : char -> bool.

Lemma take_drop_while (s : str) : take_while p s ++ drop_while p s = s.
Proof.
  induction s as [|x s IH]; simpl; [reflexivity|].
  destruct (p x); simpl; [now rewrite IH | reflexivity].
Qed.

Lemma take_while_all (s : str) : forallb p (take_while p s) = true.
Proof.
  induction s as [|x s IH]; simpl; [reflexivity|].
  destruct (p x) eqn:E; simpl; [now rewrite E | reflexivity].
Qed.

Lemma drop_while_all (s : str) : forallb p s = true -> drop_while p s = [].
Proof.
  induction s as [|x s IH]; simpl; [reflexivity|].
  destruct (p x); simpl; [exact IH | discriminate].
Qed.

Lemma drop_while_head (x : char) (s : str) :
  p x = false -> drop_while p (x :: s) = x :: s.
Proof. intros E. simpl. now rewrite E. Qed.
End TakeDrop.

Lemma strip_all_space (s : str) : forallb isspace s = true -> strip s = [].
Proof.
  intros H. unfold strip, lstrip. now rewrite (drop_while_all _ _ H).
Qed.

Lemma rstrip_decomp (s : str) : exists w, s = rstrip s ++ w.
Proof.
  exists (rev (take_while isspace (rev s))). unfold rstrip.
  rewrite <- rev_app_distr, take_drop_while. now rewrite rev_involutive.
Qed.

Lemma strip_decomp (s : str) : exists w1 w2, s = w1 ++ strip s ++ w2.
Proof.
  destruct (rstrip_decomp (lstrip s)) as [w2 Hw2].
  exists (take_while isspace s), w2. unfold strip.
  rewrite <- Hw2. unfold lstrip. now rewrite take_drop_while.
Qed.

Lemma is_empty_false (s : str) : is_empty s = false <-> s <> [].
Proof. destruct s; simpl; split; congruence. Qed.

Lemma starts_with_iff (m s : str) :
  starts_with m s = true <-> exists rest, s = m ++ rest.
Proof.
  revert s. induction m as [|c m IH]; intros s; simpl.
  - split; [intros _; now exists s | reflexivity].
  - destruct s as [|x s]; [split; [discriminate | intros [r Hr]; discriminate]|].
    rewrite andb_true_iff, N.eqb_eq, IH. split.
    + intros [-> [r ->]]. now exists r.
    + intros [r Hr]. injection Hr as -> ->. split; [reflexivity | now exists r].
Qed.

Lemma only_at_head_strip (m b : str) :
  m <> [] -> only_at_head m b -> only_at_head m (strip b).
Proof.
  intros Hm H pre post E.
  destruct (strip_decomp b) as [w1 [w2 Hb]].
  rewrite E in Hb.
  assert (Hb' : b = (w1 ++ pre) ++ m ++ (post ++ w2))
    by (rewrite Hb; now rewrite <- !app_assoc).
  apply H in Hb'. now apply app_eq_nil in Hb'.
Qed.

(** ** Facts about the matcher *)

Lemma rmatch_seq_cons ic r rs s g k :
  rmatch ic (seq (r :: rs)) s g k
  = rmatch ic r s g (fun s' g' => rmatch ic (seq rs) s' g' k).
Proof. reflexivity. Qed.

Lemma rmatch_lit ic m s g k :
  rmatch ic (lit m) s g k
  = match strip_lit ic m s with Some s' => k s' g | None => None end.
Proof.
  revert s. induction m as [|c m IH]; intros s; [reflexivity|].
  destruct s as [|x s]; [reflexivity|].
  change (lit (c :: m)) with (Cat (Chr c) (lit m)). simpl.
  destruct (chr_eq ic c x); [apply IH | reflexivity].
Qed.

Lemma strip_lit_exact m s s' :
  strip_lit false m s = Some s' <-> s = m ++ s'.
Proof.
  revert s. induction m as [|c m IH]; intros s; simpl.
  - split; congruence.
  - destruct s as [|x s]; [split; discriminate|].
    unfold chr_eq. destruct (N.eqb_spec x c) as [->|Hne].
    + rewrite IH. split; congruence.
    + split; [discriminate | congruence].
Qed.

Lemma strip_lit_starts_with m s :
  starts_with m s = match strip_lit false m s with Some _ => true | None => false end.
Proof.
  revert s. induction m as [|c m IH]; intros s; simpl; [reflexivity|].
  destruct s as [|x s]; [reflexivity|].
  unfold chr_eq. destruct (x =? c)%N; simpl; [apply IH | reflexivity].
Qed.

(** Whatever the pattern, a match ends in the continuation. *)
Lemma rep_greedy_cont p lo hi s g k m :
  rep_greedy p lo hi s g k = Some m -> exists s', k s' g = Some m.
Proof.
  revert lo hi. induction s as [|x s IH]; intros lo hi; simpl.
  - destruct lo; [eauto | discriminate].
  - destruct (p x && may_take hi).
    + destruct (rep_greedy p (pred lo) (option_map pred hi) s g k) eqn:E.
      * intros [= <-]. eapply IH, E.
      * destruct lo; [eauto | discriminate].
    + destruct lo; [eauto | discriminate].
Qed.

Lemma rmatch_cont ic r : forall s g k m,
  rmatch ic r s g k = Some m -> exists s' g', k s' g' = Some m.
Proof.
  induction r as [|c|r1 IH1 r2 IH2|r1 IH1 r2 IH2|r1 IH1|p lo hi|r1 IH1|r1 IH1];
    intros s g k m; simpl.
  - eauto.
  - destruct s as [|x s]; [discriminate|]. destruct (chr_eq ic c x); [eauto | discriminate].
  - intros H. apply IH1 in H as [s1 [g1 H]]. now apply IH2 in H.
  - destruct (rmatch ic r1 s g k) eqn:E; [intros [= <-]; eapply IH1, E | apply IH2].
  - destruct (rmatch ic r1 s g k) eqn:E; [intros [= <-]; eapply IH1, E | eauto].
  - intros H. apply rep_greedy_cont in H as [s' H]. eauto.
  - intros H. apply IH1 in H as [s1 [g1 H]]. eauto.
  - destruct (rmatch ic r1 s g accept) as [[s1 g1]|]; [eauto | discriminate].
Qed.

(** When the rest of the pattern cannot fail, a greedy repetition keeps
    its first, longest run. *)
Lemma rep_greedy_total p (k : cont) g :
  (forall s', k s' g <> None) ->
  forall s lo hi,
    rep_greedy p lo hi s g k
    = if (lo <=? run_len p hi s)%nat then k (skipn (run_len p hi s) s) g
      else None.
Proof.
  intros Hk. induction s as [|x s IH]; intros lo hi; simpl.
  - destruct lo; reflexivity.
  - destruct (p x && may_take hi); simpl.
    + rewrite IH. destruct lo as [|lo]; simpl.
      * destruct (k (skipn _ s) g) eqn:E; [reflexivity | now apply Hk in E].
      * destruct (lo <=? _)%nat; [|reflexivity].
        destruct (k (skipn _ s) g) eqn:E; [reflexivity | now apply Hk in E].
    + destruct lo; reflexivity.
Qed.

Lemma run_len_unbounded p s : run_len p None s = length (take_while p s).
Proof.
  induction s as [|x s IH]; simpl; [reflexivity|].
  rewrite andb_true_r. destruct (p x); simpl; [now rewrite IH | reflexivity].
Qed.

Lemma skipn_take_while p s : skipn (length (take_while p s)) s = drop_while p s.
Proof.
  induction s as [|x s IH]; simpl; [reflexivity|].
  destruct (p x); simpl; [exact IH | reflexivity].
Qed.

Lemma firstn_take_while p s :
  firstn (length s - length (drop_while p s)) s = take_while p s.
Proof.
  rewrite <- (take_drop_while p s) at 1 3.
  rewrite length_app.
  replace (_ + _ - _)%nat with (length (take_while p s) + 0)%nat by lia.
  rewrite firstn_app_2. simpl. now rewrite app_nil_r.
Qed.

(** A group made of one class repeated at least once, at the end of a
    pattern: it takes the longest run, which must not be empty. *)
Lemma rmatch_group_plus ic p s g :
  rmatch ic (seq [Grp (Rep p 1 None)]) s g accept
  = match take_while p s with
    | [] => None
    | t => Some (drop_while p s, Some t)
    end.
Proof.
  cbn [seq fold_right rmatch].
  rewrite rep_greedy_total by discriminate.
  rewrite run_len_unbounded, skipn_take_while.
  unfold accept. rewrite firstn_take_while.
  destruct (take_while p s); reflexivity.
Qed.

(** A greedy [p*] in front of a pattern that cannot start with a [p]
    character is never given back. *)
Lemma rep_star_commit p (k : cont) g :
  (forall x s', p x = true -> k (x :: s') g = None) ->
  forall s, rep_greedy p 0 None s g k = k (drop_while p s) g.
Proof.
  intros Hk. induction s as [|x s IH]; simpl; [reflexivity|].
  rewrite andb_true_r. destruct (p x) eqn:E; [|reflexivity].
  change (option_map pred None) with (@None nat). rewrite IH.
  destruct (k (drop_while p s) g) eqn:E2; [reflexivity|].
  now apply Hk.
Qed.

(** ** Facts about [re.search] *)

Lemma re_search_unfold ic r s :
  re_search ic r s
  = match rmatch ic r s None accept with
    | Some (_, g) => Some {| group1 := g |}
    | None => match s with [] => None | _ :: s' => re_search ic r s' end
    end.
Proof. destruct s; reflexivity. Qed.

(** Every match found by a search is a match at some offset. *)
Lemma re_search_some ic r s mt :
  re_search ic r s = Some mt ->
  exists pre suf rest,
    s = pre ++ suf /\ rmatch ic r suf None accept = Some (rest, group1 mt).
Proof.
  induction s as [|x s IH]; rewrite re_search_unfold.
  - destruct (rmatch ic r [] None accept) as [[rest g]|] eqn:E; [|discriminate].
    intros [= <-]. now exists [], [], rest.
  - destruct (rmatch ic r (x :: s) None accept) as [[rest g]|] eqn:E.
    + intros [= <-]. now exists [], (x :: s), rest.
    + intros H. apply IH in H as [pre [suf [rest [-> H]]]].
      now exists (x :: pre), suf, rest.
Qed.

(** A pattern that starts with a literal is only found where the literal
    occurs, character for character, when case is not ignored. *)
Lemma rmatch_lit_head m rs s st :
  rmatch false (seq (lit m :: rs)) s None accept = Some st ->
  exists rest, s = m ++ rest.
Proof.
  rewrite rmatch_seq_cons, rmatch_lit.
  destruct (strip_lit false m s) as [rest|] eqn:E; [|discriminate].
  intros _. exists rest. now apply strip_lit_exact.
Qed.

Lemma re_search_occurs m rs s mt :
  re_search false (seq (lit m :: rs)) s = Some mt -> occurs m s.
Proof.
  intros H. apply re_search_some in H as [pre [suf [rest [-> H]]]].
  apply rmatch_lit_head in H as [post ->]. now exists pre, post.
Qed.

Lemma re_search_no_occurrence m rs s :
  ~ occurs m s -> re_search false (seq (lit m :: rs)) s = None.
Proof.
  intros H. destruct (re_search false _ s) eqn:E; [|reflexivity].
  now apply re_search_occurs in E.
Qed.

(** In a text where the literal occurs at offset 0 or not at all, the
    search is the attempt at offset 0. *)
Lemma re_search_only_head m rs s :
  m <> [] -> only_at_head m s ->
  re_search false (seq (lit m :: rs)) s
  = match rmatch false (seq (lit m :: rs)) s None accept with
    | Some (_, g) => Some {| group1 := g |}
    | None => None
    end.
Proof.
  intros Hm H. rewrite re_search_unfold.
  destruct (rmatch false _ s None accept) as [[rest g]|]; [reflexivity|].
  destruct s as [|x s]; [reflexivity|].
  apply re_search_no_occurrence. intros [pre [post E]].
  specialize (H (x :: pre) post). rewrite E in H.
  discriminate H. reflexivity.
Qed.

(** The three patterns with a mandatory group: a match always sets it. *)
Lemma rmatch_group_set ic m p r s st :
  rmatch ic (seq [lit m; Rep p 0 None; Grp r]) s None accept = Some st ->
  snd st <> None.
Proof.
  rewrite rmatch_seq_cons, rmatch_lit.
  destruct (strip_lit ic m s) as [s1|]; [|discriminate].
  rewrite rmatch_seq_cons. cbn [rmatch]. intros H.
  apply rep_greedy_cont in H as [s2 H].
  cbn [seq fold_right rmatch] in H.
  apply rmatch_cont in H as [s3 [g3 H]].
  unfold accept in H. injection H as <-. discriminate.
Qed.

Lemma re_search_group_set ic m p r s mt :
  re_search ic (seq [lit m; Rep p 0 None; Grp r]) s = Some mt ->
  group1 mt <> None.
Proof.
  intros H. apply re_search_some in H as [pre [suf [rest [_ H]]]].
  now apply rmatch_group_set in H.
Qed.

(** ** Facts about the split *)

Lemma matches_at_split s : matches_at split_re s = starts_with marker s.
Proof.
  unfold matches_at, split_re. cbn [rmatch]. rewrite rmatch_lit.
  rewrite strip_lit_starts_with.
  destruct (strip_lit false marker s); reflexivity.
Qed.

Lemma split_from_unfold cur s :
  split_from split_re cur s
  = match s with
    | [] => [cur]
    | x :: s' =>
        if starts_with marker s then cur :: split_from split_re [x] s'
        else split_from split_re (cur ++ [x]) s'
    end.
Proof.
  destruct s as [|x s]; simpl.
  - reflexivity.
  - now rewrite matches_at_split.
Qed.

Lemma occurs_head m s : starts_with m s = true -> occurs m s.
Proof.
  intros H. apply starts_with_iff in H as [rest ->]. now exists [], rest.
Qed.

Lemma occurs_tail m x s : occurs m s -> occurs m (x :: s).
Proof. intros [pre [post ->]]. now exists (x :: pre), post. Qed.

(** Without a marker the text is one block. *)
Lemma split_no_marker s : forall cur,
  ~ occurs marker s -> split_from split_re cur s = [cur ++ s].
Proof.
  induction s as [|x s IH]; intros cur H; rewrite split_from_unfold.
  - now rewrite app_nil_r.
  - destruct (starts_with marker (x :: s)) eqn:E.
    + now apply occurs_head in E.
    + rewrite IH; [now rewrite <- app_assoc|].
      intros Ho. apply H. now apply occurs_tail.
Qed.

Lemma app_same_length {A : Type} (a b u v : list A) :
  length a = length b -> a ++ u = b ++ v -> a = b /\ u = v.
Proof.
  revert b. induction a as [|x a IH]; intros [|y b] Hl E; try discriminate.
  - now split.
  - injection Hl as Hl. injection E as -> E.
    destruct (IH _ Hl E) as [-> ->]. now split.
Qed.

(** Every block has the marker at its head or nowhere. *)
Lemma split_from_only_at_head s : forall cur,
  (forall pre post,
     cur ++ s = pre ++ marker ++ post -> length pre < length cur -> pre = []) ->
  Forall (only_at_head marker) (split_from split_re cur s).
Proof.
  induction s as [|x s IH]; intros cur I; rewrite split_from_unfold.
  - constructor; [|constructor]. intros pre post E.
    apply (I pre post); [now rewrite app_nil_r|].
    rewrite E, !length_app, marker_chars. simpl. lia.
  - destruct (starts_with marker (x :: s)) eqn:Em.
    + constructor.
      * intros pre post E. apply (I pre (post ++ x :: s)).
        -- rewrite E. now rewrite <- !app_assoc.
        -- rewrite E, !length_app, marker_chars. simpl. lia.
      * apply IH. intros pre post _ Hl. destruct pre; [reflexivity|].
        simpl in Hl. lia.
    + apply IH. intros pre post E Hl. rewrite <- app_assoc in E. simpl in E.
      rewrite length_app in Hl. simpl in Hl.
      destruct (Nat.eq_dec (length pre) (length cur)) as [Heq|Hne].
      * symmetry in Heq. destruct (app_same_length _ _ _ _ Heq E) as [_ Hs].
        assert (Hc : starts_with marker (x :: s) = true)
          by (apply starts_with_iff; now exists post).
        congruence.
      * apply (I pre post E). lia.
Qed.

Lemma re_split_only_at_head text :
  Forall (only_at_head marker) (re_split split_re text).
Proof.
  apply split_from_only_at_head. intros pre post _ Hl. simpl in Hl. lia.
Qed.

(** The marker cannot start in one text and end in the next one when the
    next one starts with the marker: its first character occurs in it once. *)
Lemma starts_with_app_l m a w :
  starts_with m a = true -> starts_with m (a ++ w) = true.
Proof.
  intros H. apply starts_with_iff in H as [rest ->].
  apply starts_with_iff. exists (rest ++ w). now rewrite app_assoc.
Qed.

Lemma starts_with_straddle c m a w :
  ~ In c m -> a <> [] ->
  starts_with (c :: m) (a ++ c :: w) = starts_with (c :: m) a.
Proof.
  intros Hc Ha.
  destruct (starts_with (c :: m) a) eqn:E1; [now apply starts_with_app_l|].
  destruct (starts_with (c :: m) (a ++ c :: w)) eqn:E2; [|reflexivity].
  exfalso. apply starts_with_iff in E2 as [rest E2].
  destruct (Nat.le_gt_cases (length (c :: m)) (length a)) as [Hle|Hgt].
  - assert (E3 : a = firstn (length (c :: m)) a ++ skipn (length (c :: m)) a)
      by (symmetry; apply firstn_skipn).
    rewrite E3, <- app_assoc in E2.
    apply app_same_length in E2 as [E2 _].
    + assert (Hs : starts_with (c :: m) a = true)
        by (apply starts_with_iff; exists (skipn (length (c :: m)) a); congruence).
      congruence.
    + rewrite length_firstn. lia.
  - assert (E3 : c :: m = firstn (length a) (c :: m) ++ skipn (length a) (c :: m))
      by (symmetry; apply firstn_skipn).
    rewrite E3, <- app_assoc in E2.
    apply app_same_length in E2 as [_ E2].
    + destruct a as [|y a]; [congruence|]. simpl in E2, Hgt.
      apply Hc. rewrite <- (firstn_skipn (length a) m).
      apply in_or_app. right.
      destruct (skipn (length a) m) as [|z l] eqn:Es.
      * apply (f_equal (@length char)) in Es. rewrite length_skipn in Es.
        simpl in Es. lia.
      * simpl in E2. injection E2 as <- _. now left.
    + rewrite length_firstn. lia.
Qed.

Lemma marker_straddle a rest :
  a <> [] ->
  starts_with marker (a ++ marker ++ rest) = starts_with marker a.
Proof.
  intros Ha. rewrite marker_chars.
  apply starts_with_straddle; [|exact Ha].
  simpl. intros H. repeat (destruct H as [H|H]; [discriminate H|]). exact H.
Qed.

(** Splitting a text followed by one that starts with the marker. *)
Lemma split_from_app a rest : forall cur,
  split_from split_re cur (a ++ marker ++ rest)
  = split_from split_re cur a ++ tl (split_from split_re [] (marker ++ rest)).
Proof.
  induction a as [|x a IH]; intros cur.
  - rewrite app_nil_l.
    rewrite (split_from_unfold cur), (split_from_unfold []).
    rewrite marker_chars. reflexivity.
  - change ((x :: a) ++ marker ++ rest) with (x :: (a ++ marker ++ rest)).
    rewrite (split_from_unfold cur (x :: a ++ marker ++ rest)).
    rewrite (split_from_unfold cur (x :: a)).
    change (x :: a ++ marker ++ rest) with ((x :: a) ++ marker ++ rest).
    rewrite marker_straddle by discriminate.
    destruct (starts_with marker (x :: a)); [simpl; now rewrite IH | apply IH].
Qed.

Lemma split_starts_with_marker rest :
  exists bs, re_split split_re (marker ++ rest) = [] :: bs.
Proof.
  unfold re_split. rewrite split_from_unfold, marker_chars. simpl. eauto.
Qed.

Lemma contains_occurs m s : contains m s = true <-> occurs m s.
Proof.
  induction s as [|x s IH]; simpl; rewrite orb_true_iff.
  - split.
    + intros [H|H]; [now apply occurs_head | discriminate].
    + intros [pre [post E]]. left. apply starts_with_iff. exists post.
      destruct pre; [exact E | discriminate].
  - rewrite IH. split.
    + intros [H|H]; [now apply occurs_head | now apply occurs_tail].
    + intros [pre [post E]]. destruct pre as [|y pre].
      * left. apply starts_with_iff. now exists post.
      * right. injection E as _ ->. now exists pre, post.
Qed.

Lemma contains_false m s : contains m s = false -> ~ occurs m s.
Proof. intros H Ho. apply contains_occurs in Ho. congruence. Qed.

(** ** Facts about the loop *)

Lemma group1_strip_ok ic m p r s :
  exists v,
    group1_strip (re_search ic (seq [lit m; Rep p 0 None; Grp r]) s) = Ok v.
Proof.
  destruct (re_search ic _ s) as [mt|] eqn:E; simpl; [|eauto].
  destruct (group1 mt) eqn:G; [eauto|].
  exfalso. now apply re_search_group_set in E.
Qed.

Lemma client_name_of_ok block : exists v, client_name_of block = Ok v.
Proof. apply group1_strip_ok. Qed.

Lemma provider_of_ok block : exists v, provider_of block = Ok v.
Proof. apply group1_strip_ok. Qed.

Lemma process_block_ok block : exists o, process_block block = Ok o.
Proof.
  unfold process_block. destruct (is_empty (strip block)); [eauto|].
  destruct (client_name_of_ok (strip block)) as [c ->]. simpl.
  destruct (is_empty c); [eauto|].
  destruct (provider_of_ok (strip block)) as [v ->]. simpl. eauto.
Qed.

Lemma loop_flat_map blocks : forall results,
  loop blocks results = Ok (results ++ flat_map record_of blocks).
Proof.
  induction blocks as [|b bs IH]; intros results; simpl.
  - now rewrite app_nil_r.
  - unfold record_of. destruct (process_block_ok b) as [[r|] ->]; simpl.
    + rewrite IH. now rewrite <- app_assoc.
    + apply IH.
Qed.

Lemma parse_notes_flat_map text :
  parse_notes text = Ok (flat_map record_of (re_split split_re text)).
Proof. unfold parse_notes. now rewrite loop_flat_map. Qed.

Lemma process_block_client block r :
  process_block block = Ok (Some r) ->
  client_name_of (strip block) = Ok (Client r) /\ Client r <> [].
Proof.
  unfold process_block. destruct (is_empty (strip block)); [discriminate|].
  destruct (client_name_of (strip block)) as [c|e]; [|discriminate]. simpl.
  destruct (is_empty c) eqn:Ec; [discriminate|].
  destruct (provider_of (strip block)); [|discriminate]. simpl.
  intros [= <-]. simpl. split; [reflexivity | now apply is_empty_false].
Qed.

Lemma process_block_no_client block :
  client_name_of (strip block) = Ok [] -> process_block block = Ok None.
Proof.
  intros H. unfold process_block. destruct (is_empty (strip block)); [reflexivity|].
  now rewrite H.
Qed.

Lemma record_of_client block r : In r (record_of block) -> Client r <> [].
Proof.
  unfold record_of. destruct (process_block block) as [[r'|]|] eqn:E; simpl;
    try contradiction.
  intros [<-|[]]. now apply process_block_client in E.
Qed.

Lemma parse_notes_app a b :
  starts_with marker b = true ->
  parse_notes (a ++ b)
  = Ok (flat_map record_of (re_split split_re a)
        ++ flat_map record_of (re_split split_re b)).
Proof.
  intros H. apply starts_with_iff in H as [rest ->].
  rewrite parse_notes_flat_map. unfold re_split.
  rewrite split_from_app, flat_map_app.
  destruct (split_starts_with_marker rest) as [bs E]. unfold re_split in E.
  rewrite E. reflexivity.
Qed.

(** ** The [Client] field *)

Lemma take_while_after_space (p : char -> bool) rest :
  take_while p (lstrip rest) = [] ->
  forallb isspace (take_while p rest) = true.
Proof.
  unfold lstrip. induction rest as [|x rest IH]; simpl; [reflexivity|].
  destruct (isspace x) eqn:Ex.
  - intros H. destruct (p x); simpl; [|reflexivity]. now rewrite Ex, IH.
  - simpl. intros ->. reflexivity.
Qed.

(** [\s*] in front of the group gives whitespace back only to a group
    that then holds nothing but whitespace. *)
Lemma client_tail (k : cont) :
  (forall s g, k s g = match take_while name_char s with
                       | [] => None
                       | t => Some (drop_while name_char s, Some t)
                       end) ->
  forall rest,
    match rep_greedy isspace 0 None rest None k with
    | Some (_, Some t) => strip t = strip (take_while name_char (lstrip rest))
    | Some (_, None) => False
    | None => take_while name_char (lstrip rest) = []
    end.
Proof.
  intros Hk. induction rest as [|x rest IH].
  - simpl. rewrite Hk. reflexivity.
  - cbn [rep_greedy may_take andb option_map pred]. rewrite andb_true_r.
    unfold lstrip. cbn [drop_while]. destruct (isspace x) eqn:Ex.
    + destruct (rep_greedy isspace 0 None rest None k) as [[s' [t|]]|] eqn:E;
        try exact IH.
      rewrite Hk.
      destruct (take_while name_char (x :: rest)) as [|y t] eqn:Et; [exact IH|].
      fold (lstrip rest). rewrite IH. change (strip []) with (@nil char).
      apply strip_all_space. rewrite <- Et.
      apply (take_while_after_space name_char (x :: rest)).
      unfold lstrip. simpl. rewrite Ex. exact IH.
    + rewrite Hk. destruct (take_while name_char (x :: rest)); reflexivity.
Qed.

Lemma client_attempt rest :
  match rmatch false client_re (marker ++ rest) None accept with
  | Some (_, Some t) => strip t = strip (take_while name_char (lstrip rest))
  | Some (_, None) => False
  | None => take_while name_char (lstrip rest) = []
  end.
Proof.
  unfold client_re. rewrite rmatch_seq_cons, rmatch_lit.
  assert (E : strip_lit false (py "Client:") (marker ++ rest) = Some rest)
    by now apply strip_lit_exact.
  rewrite E, rmatch_seq_cons. cbn [rmatch].
  apply client_tail. intros s g. apply rmatch_group_plus.
Qed.

Lemma marker_not_nil : marker <> [].
Proof. discriminate. Qed.

Lemma client_name_of_block block rest :
  only_at_head marker block -> block = marker ++ rest ->
  client_name_of block = Ok (strip (take_while name_char (lstrip rest))).
Proof.
  intros H ->. unfold client_name_of, client_re.
  rewrite (re_search_only_head _ _ _ marker_not_nil H).
  pose proof (client_attempt rest) as A. unfold client_re in A.
  destruct (rmatch false _ (marker ++ rest) None accept) as [[s' [t|]]|]; simpl.
  - now rewrite A.
  - contradiction.
  - now rewrite A.
Qed.

Lemma client_name_of_no_marker block :
  only_at_head marker block -> starts_with marker block = false ->
  client_name_of block = Ok [].
Proof.
  intros H Hs. unfold client_name_of, client_re.
  rewrite re_search_no_occurrence; [reflexivity|].
  intros [pre [post E]]. pose proof (H _ _ E) as ->.
  assert (Hc : starts_with marker block = true)
    by (apply starts_with_iff; now exists post).
  congruence.
Qed.

(** ** The [Date] field *)

Lemma firstn_consumed (w t : str) :
  firstn (length (w ++ t) - length t) (w ++ t) = w.
Proof.
  rewrite length_app.
  replace (length w + length t - length t) with (length w + 0) by lia.
  rewrite firstn_app_2. simpl. apply app_nil_r.
Qed.

Lemma date_shape_length d : date_shape d = true -> length d = 10.
Proof.
  destruct d as [|a [|b [|c [|e [|f [|h [|i [|j [|l [|n [|o t]]]]]]]]]]];
    simpl; try discriminate. reflexivity.
Qed.

Ltac split_test :=
  match goal with
  | |- context [if ?b then _ else _] =>
      destruct b eqn:?; cbn [andb]; try reflexivity
  end.

Lemma date_shape_attempt s g (k : cont) :
  rmatch false date_shape_re s g k
  = if date_shape (firstn 10 s) then k (skipn 10 s) g else None.
Proof.
  unfold date_shape_re.
  destruct s as [|a [|b [|c [|e [|f [|h [|i [|j [|l [|n t]]]]]]]]]];
    cbn [seq fold_right rmatch rep_greedy may_take pred option_map chr_eq
         firstn skipn date_shape andb];
    rewrite ?andb_true_r, ?andb_false_r; repeat split_test;
    try reflexivity.
  destruct t; cbn [rep_greedy may_take andb]; rewrite ?andb_false_r;
    destruct (k _ g); reflexivity.
Qed.

Lemma digit_not_space x : digit x = true -> isspace x = false.
Proof.
  unfold digit, isspace. intros H.
  apply andb_true_iff in H as [H1 H2].
  apply N.leb_le in H1. apply N.leb_le in H2.
  repeat match goal with
  | |- context [(?a <=? ?b)%N] => destruct (N.leb_spec a b)
  | |- context [(?a =? ?b)%N] => destruct (N.eqb_spec a b)
  end; simpl; try reflexivity; lia.
Qed.

Lemma space_not_digit x : isspace x = true -> digit x = false.
Proof.
  intros H. destruct (digit x) eqn:E; [|reflexivity].
  apply digit_not_space in E. congruence.
Qed.

Lemma date_shape_head x d : date_shape (x :: d) = true -> digit x = true.
Proof.
  destruct d as [|b [|c [|e [|f [|h [|i [|j [|l [|n [|o t]]]]]]]]]];
    simpl; try discriminate.
  destruct (digit x); [reflexivity | discriminate].
Qed.

(** The attempt of the date pattern at the head of [s]. *)
Lemma date_attempt s :
  rmatch false date_re s None accept
  = match strip_lit false (py "Date:") s with
    | Some s1 =>
        if date_shape (firstn 10 (lstrip s1))
        then Some (skipn 10 (lstrip s1), Some (firstn 10 (lstrip s1)))
        else None
    | None => None
    end.
Proof.
  unfold date_re. rewrite rmatch_seq_cons, rmatch_lit.
  destruct (strip_lit false (py "Date:") s) as [s1|]; [|reflexivity].
  rewrite rmatch_seq_cons. cbn [rmatch]. rewrite rep_star_commit.
  - cbn [seq fold_right rmatch]. rewrite date_shape_attempt.
    fold (lstrip s1).
    destruct (date_shape (firstn 10 (lstrip s1))) eqn:Ed; [|reflexivity].
    unfold accept. do 2 f_equal. f_equal.
    pose proof (date_shape_length _ Ed) as Hl.
    rewrite <- (firstn_skipn 10 (lstrip s1)) at 1 3.
    rewrite firstn_consumed. reflexivity.
  - intros x s' Hx. cbn [seq fold_right rmatch]. rewrite date_shape_attempt.
    destruct (date_shape (firstn 10 (x :: s'))) eqn:Ed; [|reflexivity].
    change (firstn 10 (x :: s')) with (x :: firstn 9 s') in Ed.
    apply date_shape_head in Ed. apply space_not_digit in Hx. congruence.
Qed.

Lemma lstrip_app_space ws s :
  forallb isspace ws = true -> lstrip (ws ++ s) = lstrip s.
Proof.
  unfold lstrip. induction ws as [|x ws IH]; simpl; [reflexivity|].
  destruct (isspace x); [exact IH | discriminate].
Qed.

Lemma date_shape_firstn d post :
  date_shape d = true -> firstn 10 (d ++ post) = d.
Proof.
  destruct d as [|a [|b [|c [|e [|f [|h [|i [|j [|l [|n [|o t]]]]]]]]]]];
    simpl; try discriminate. reflexivity.
Qed.

Lemma date_attempt_some s rest g :
  rmatch false date_re s None accept = Some (rest, g) ->
  exists d, g = Some d /\ date_here s d.
Proof.
  rewrite date_attempt.
  destruct (strip_lit false (py "Date:") s) as [s1|] eqn:E1; [|discriminate].
  apply strip_lit_exact in E1.
  destruct (date_shape (firstn 10 (lstrip s1))) eqn:Ed; [|discriminate].
  intros [= <- <-]. exists (firstn 10 (lstrip s1)). split; [reflexivity|].
  exists (take_while isspace s1), (skipn 10 (lstrip s1)).
  split; [|split; [apply take_while_all | exact Ed]].
  rewrite firstn_skipn. unfold lstrip. now rewrite take_drop_while.
Qed.

Lemma date_here_attempt s d :
  date_here s d ->
  exists rest, rmatch false date_re s None accept = Some (rest, Some d).
Proof.
  intros [ws [post [E [Hws Hd]]]]. rewrite date_attempt.
  assert (E1 : strip_lit false (py "Date:") s = Some (ws ++ d ++ post))
    by now apply strip_lit_exact.
  rewrite E1, (lstrip_app_space _ _ Hws).
  assert (Hl : lstrip (d ++ post) = d ++ post).
  { destruct d as [|x d]; [discriminate Hd|].
    apply drop_while_head, digit_not_space. eapply date_shape_head, Hd. }
  rewrite Hl, (date_shape_firstn _ _ Hd), Hd. eauto.
Qed.

(** Leftmost match: what [re.search] returns, and when it returns nothing. *)
Lemma re_search_leftmost ic r s mt :
  re_search ic r s = Some mt ->
  exists pre suf rest,
    s = pre ++ suf /\ rmatch ic r suf None accept = Some (rest, group1 mt)
    /\ forall pre' suf',
         s = pre' ++ suf' -> length pre' < length pre ->
         rmatch ic r suf' None accept = None.
Proof.
  induction s as [|x s IH]; rewrite re_search_unfold.
  - destruct (rmatch ic r [] None accept) as [[rest g]|] eqn:E; [|discriminate].
    intros [= <-]. exists [], [], rest. repeat split; [exact E|].
    simpl. intros; lia.
  - destruct (rmatch ic r (x :: s) None accept) as [[rest g]|] eqn:E.
    + intros [= <-]. exists [], (x :: s), rest. repeat split; [exact E|].
      simpl. intros; lia.
    + intros H. apply IH in H as [pre [suf [rest [-> [H Hmin]]]]].
      exists (x :: pre), suf, rest. repeat split; [exact H|].
      intros [|y pre'] suf' E' Hl.
      * simpl in E'. now subst suf'.
      * injection E' as <- E'. apply (Hmin _ _ E'). simpl in Hl. lia.
Qed.

Lemma re_search_none ic r s :
  re_search ic r s = None ->
  forall pre suf, s = pre ++ suf -> rmatch ic r suf None accept = None.
Proof.
  induction s as [|x s IH]; rewrite re_search_unfold.
  - destruct (rmatch ic r [] None accept) as [[rest g]|] eqn:E; [discriminate|].
    intros _ pre suf E'. symmetry in E'. apply app_eq_nil in E' as [_ ->].
    exact E.
  - destruct (rmatch ic r (x :: s) None accept) as [[rest g]|] eqn:E;
      [discriminate|].
    intros H [|y pre] suf E'.
    + simpl in E'. now subst suf.
    + injection E' as _ E'. now apply (IH H pre).
Qed.

(** ** The [Session Time] field *)

(** Two texts that share the prefix [u] and continue with characters the
    pattern refuses: a match reads [u] only, so both give the same group. *)
Section Local.
Variables (ic : bool) (x x' : char) (v v' : str).

Lemma firstn_local (u u1 : str) (y : char) (w : str) :
  firstn (length (u ++ y :: w) - length (u1 ++ y :: w)) (u ++ y :: w)
  = firstn (length u - length u1) u.
Proof.
  rewrite !length_app. simpl.
  replace (length u + S (length w) - (length u1 + S (length w)))
    with (length u - length u1) by lia.
  rewrite firstn_app.
  replace (length u - length u1 - length u) with 0 by lia.
  simpl. apply app_nil_r.
Qed.

Lemma rep_greedy_local p g (k k' : cont) :
  p x = false -> p x' = false -> agree x x' v v' k k' ->
  forall u lo hi,
    option_map snd (rep_greedy p lo hi (u ++ x :: v) g k)
    = option_map snd (rep_greedy p lo hi (u ++ x' :: v') g k').
Proof.
  intros Hx Hx' Hk. induction u as [|y u IH]; intros lo hi.
  - simpl. rewrite Hx, Hx'. simpl. destruct lo; [apply (Hk []) | reflexivity].
  - cbn [app rep_greedy]. destruct (p y && may_take hi).
    + specialize (IH (pred lo) (option_map pred hi)).
      destruct (rep_greedy p (pred lo) (option_map pred hi) (u ++ x :: v) g k),
               (rep_greedy p (pred lo) (option_map pred hi) (u ++ x' :: v') g k');
        try discriminate IH; [exact IH|].
      destruct lo; [apply (Hk (y :: u)) | reflexivity].
    + destruct lo; [apply (Hk (y :: u)) | reflexivity].
Qed.

Lemma rmatch_local r :
  rejects ic r x = true -> rejects ic r x' = true ->
  forall u g k k', agree x x' v v' k k' ->
    option_map snd (rmatch ic r (u ++ x :: v) g k)
    = option_map snd (rmatch ic r (u ++ x' :: v') g k').
Proof.
  induction r as [|c|r1 IH1 r2 IH2|r1 IH1 r2 IH2|r1 IH1|p lo hi|r1 IH1|r1 IH1];
    cbn [rejects]; intros Hx Hx' u g k k' Hk.
  - apply Hk.
  - destruct u as [|y u]; cbn [app rmatch].
    + apply negb_true_iff in Hx, Hx'. now rewrite Hx, Hx'.
    + destruct (chr_eq ic c y); [apply Hk | reflexivity].
  - apply andb_true_iff in Hx as [Hx1 Hx2].
    apply andb_true_iff in Hx' as [Hx1' Hx2'].
    cbn [rmatch]. apply IH1; [assumption..|].
    intros u1 g1. now apply IH2.
  - apply andb_true_iff in Hx as [Hx1 Hx2].
    apply andb_true_iff in Hx' as [Hx1' Hx2'].
    cbn [rmatch]. pose proof (IH1 Hx1 Hx1' u g k k' Hk) as E.
    destruct (rmatch ic r1 (u ++ x :: v) g k),
             (rmatch ic r1 (u ++ x' :: v') g k');
      try discriminate E; [exact E|].
    now apply IH2.
  - cbn [rmatch]. pose proof (IH1 Hx Hx' u g k k' Hk) as E.
    destruct (rmatch ic r1 (u ++ x :: v) g k),
             (rmatch ic r1 (u ++ x' :: v') g k');
      try discriminate E; [exact E|].
    apply Hk.
  - cbn [rmatch]. apply negb_true_iff in Hx, Hx'.
    now apply rep_greedy_local.
  - cbn [rmatch]. apply IH1; [assumption..|].
    intros u1 g1. rewrite !firstn_local. apply Hk.
  - cbn [rmatch].
    assert (E : option_map snd (rmatch ic r1 (u ++ x :: v) g accept)
                = option_map snd (rmatch ic r1 (u ++ x' :: v') g accept))
      by (apply IH1; [assumption..|]; intros u1 g1; reflexivity).
    destruct (rmatch ic r1 (u ++ x :: v) g accept) as [[s1 g1]|],
             (rmatch ic r1 (u ++ x' :: v') g accept) as [[s2 g2]|];
      try discriminate E; [|reflexivity].
    injection E as ->. apply Hk.
Qed.
End Local.

(** A literal cannot start in [u] and end inside [X] when its last
    character matches none of the characters of [X] but the last. *)
Lemma strip_lit_short ic M : forall X post,
  M <> [] -> length M < length X ->
  Forall (fun x => chr_eq ic (last M 0%N) x = false) (removelast X) ->
  strip_lit ic M (X ++ post) = None.
Proof.
  induction M as [|c M IH]; intros X post Hne Hl HF; [congruence|].
  destruct X as [|x [|x1 X]]; simpl in Hl; try lia.
  change (removelast (x :: x1 :: X)) with (x :: removelast (x1 :: X)) in HF.
  inversion HF as [|? ? Hx HF']; subst.
  destruct M as [|c1 M].
  - simpl in *. now rewrite Hx.
  - cbn [app strip_lit]. destruct (chr_eq ic c x); [|reflexivity].
    apply (IH (x1 :: X) post); [discriminate | simpl in *; lia | exact HF'].
Qed.

Lemma strip_lit_straddle ic X post : forall u M,
  u <> [] -> M <> [] -> length M <= length X ->
  Forall (fun x => chr_eq ic (last M 0%N) x = false) (removelast X) ->
  strip_lit ic M (u ++ X ++ post)
  = option_map (fun u' => u' ++ X ++ post) (strip_lit ic M u).
Proof.
  induction u as [|y u IH]; intros M Hu Hne Hl HF; [congruence|].
  destruct M as [|c M]; [congruence|].
  cbn [app strip_lit]. destruct (chr_eq ic c y); [|reflexivity].
  destruct M as [|c1 M]; [reflexivity|].
  destruct u as [|y1 u].
  - cbn [app]. apply strip_lit_short; [discriminate | simpl in *; lia | exact HF].
  - apply IH; [discriminate | discriminate | simpl in *; lia | exact HF].
Qed.

Lemma session_re_unfold s :
  rmatch true session_re s None accept
  = match strip_lit true session_marker s with
    | Some s1 => rmatch true session_tail s1 None accept
    | None => None
    end.
Proof. unfold session_re. now rewrite rmatch_seq_cons, rmatch_lit. Qed.

Lemma session_tail_total s : rmatch true session_tail s None accept <> None.
Proof.
  unfold session_tail. rewrite rmatch_seq_cons. cbn [rmatch].
  assert (Hk : forall s' : str,
             rmatch true (seq [Opt (Alt (Grp range_re) (Chr 45%N))]) s' None accept
             <> None).
  { intros s'. cbn [seq fold_right rmatch].
    destruct (match rmatch true range_re s' None _ with
              | Some m => Some m
              | None => _
              end); discriminate. }
  rewrite (rep_greedy_total isspace _ None Hk). simpl. apply Hk.
Qed.

Lemma ascii_lower_cases x c :
  ascii_lower x = c -> x = c \/ (x + 32 = c)%N.
Proof.
  unfold ascii_lower. destruct (_ && _); intros <-; [now right | now left].
Qed.

Lemma ieq_uncased c x :
  ascii_lower c = c -> c <> 0x69%N -> c <> 0x73%N -> c <> 0x6B%N ->
  ascii_lower x <> c -> ieq c x = false.
Proof.
  intros Hc H1 H2 H3 Hx. unfold ieq. rewrite Hc.
  apply N.eqb_neq in H1, H2, H3, Hx. now rewrite H1, H2, H3, Hx.
Qed.

Lemma strip_lit_same_case M : forall X post,
  same_ignoring_case X M -> strip_lit true M (X ++ post) = Some post.
Proof.
  unfold same_ignoring_case.
  induction M as [|c M IH]; intros [|x X] post H; try discriminate H.
  - reflexivity.
  - injection H as Hx H. cbn [app strip_lit chr_eq]. unfold ieq.
    rewrite Hx, N.eqb_refl. simpl. now apply IH.
Qed.

Ltac marker_chars X H :=
  unfold same_ignoring_case in H;
  change (map ascii_lower session_marker)
    with [115; 101; 115; 115; 105; 111; 110; 32; 116; 105; 109; 101; 58]%N in H;
  destruct X as [|?x [|?x [|?x [|?x [|?x [|?x [|?x [|?x [|?x [|?x [|?x [|?x
                [|?x [|? ?]]]]]]]]]]]]]];
  try discriminate H; cbn [map] in H; injection H as ? ? ? ? ? ? ? ? ? ? ? ? ?.

Lemma case_variant_length X :
  same_ignoring_case X session_marker -> length X = 13.
Proof. intros H. marker_chars X H. reflexivity. Qed.

Lemma case_variant_colon X :
  same_ignoring_case X session_marker ->
  Forall (fun x => chr_eq true (last session_marker 0%N) x = false)
         (removelast X).
Proof.
  intros H. marker_chars X H.
  change (last session_marker 0%N) with 58%N. cbn [removelast chr_eq].
  repeat constructor;
    (apply ieq_uncased; [reflexivity | discriminate.. | congruence]).
Qed.

Lemma case_variant_head X :
  same_ignoring_case X session_marker ->
  exists x0 X1, X = x0 :: X1 /\ rejects true session_tail x0 = true.
Proof.
  intros H. marker_chars X H. eexists _, _. split; [reflexivity|].
  match goal with
  | E : ascii_lower ?x = 115%N |- rejects _ _ ?x = true =>
      apply ascii_lower_cases in E; destruct E as [E|E];
      [ subst; reflexivity
      | assert (x = 83%N) by lia; subst; reflexivity ]
  end.
Qed.

Lemma session_attempt_head X post :
  same_ignoring_case X session_marker ->
  rmatch true session_re (X ++ post) None accept
  = rmatch true session_tail post None accept.
Proof.
  intros H. now rewrite session_re_unfold, (strip_lit_same_case _ _ _ H).
Qed.

Lemma session_attempt_local u X post :
  u <> [] -> same_ignoring_case X session_marker ->
  option_map snd (rmatch true session_re (u ++ X ++ post) None accept)
  = option_map snd
      (rmatch true session_re (u ++ session_marker ++ post) None accept).
Proof.
  intros Hu HX.
  assert (HM : same_ignoring_case session_marker session_marker) by reflexivity.
  assert (Hne : session_marker <> []) by discriminate.
  assert (HlX : length session_marker <= length X)
    by (rewrite (case_variant_length _ HX); apply Nat.le_refl).
  rewrite !session_re_unfold.
  rewrite (strip_lit_straddle true X post u session_marker Hu Hne HlX
             (case_variant_colon _ HX)).
  rewrite (strip_lit_straddle true session_marker post u session_marker Hu Hne
             (Nat.le_refl _) (case_variant_colon _ HM)).
  destruct (strip_lit true session_marker u) as [u'|]; [|reflexivity].
  cbn [option_map].
  destruct (case_variant_head _ HX) as [x0 [X1 [-> Hx0]]].
  destruct (case_variant_head _ HM) as [m0 [M1 [-> Hm0]]].
  cbn [app]. apply rmatch_local; [exact Hx0 | exact Hm0 |].
  intros u1 g1. reflexivity.
Qed.

Lemma session_search_case pre X post :
  same_ignoring_case X session_marker ->
  re_search true session_re (pre ++ X ++ post)
  = re_search true session_re (pre ++ session_marker ++ post).
Proof.
  intros HX.
  assert (HM : same_ignoring_case session_marker session_marker) by reflexivity.
  induction pre as [|y pre IH].
  - cbn [app]. rewrite !re_search_unfold.
    rewrite (session_attempt_head _ post HX), (session_attempt_head _ post HM).
    destruct (rmatch true session_tail post None accept) as [[rest g]|] eqn:E;
      [reflexivity|].
    now apply session_tail_total in E.
  - rewrite (re_search_unfold true session_re ((y :: pre) ++ X ++ post)).
    rewrite (re_search_unfold true session_re ((y :: pre) ++ session_marker ++ post)).
    assert (Hy : y :: pre <> []) by discriminate.
    pose proof (session_attempt_local (y :: pre) X post Hy HX) as E.
    destruct (rmatch true session_re ((y :: pre) ++ X ++ post) None accept)
      as [[r1 g1]|],
      (rmatch true session_re ((y :: pre) ++ session_marker ++ post) None accept)
      as [[r2 g2]|]; try discriminate E.
    + injection E as ->. reflexivity.
    + exact IH.
Qed.

Lemma session_time_case pre X post :
  same_ignoring_case X session_marker ->
  session_time_of (pre ++ X ++ post)
  = session_time_of (pre ++ session_marker ++ post).
Proof.
  intros H. unfold session_time_of. now rewrite (session_search_case pre X post H).
Qed.

Lemma process_block_fields block r :
  process_block block = Ok (Some r) ->
  client_name_of (strip block) = Ok (Client r)
  /\ provider_of (strip block) = Ok (Rendering_Provider r)
  /\ Date r = date_of (strip block)
  /\ Session_Time r = session_time_of (strip block).
Proof.
  unfold process_block. destruct (is_empty (strip block)); [discriminate|].
  destruct (client_name_of (strip block)) as [c|e]; [|discriminate]. simpl.
  destruct (is_empty c); [discriminate|].
  destruct (provider_of (strip block)) as [p|e]; [|discriminate]. simpl.
  intros [= <-]. simpl. repeat split.
Qed.

Lemma group1_strip_no_match m rs block v :
  group1_strip (re_search false (seq (lit m :: rs)) block) = Ok v ->
  contains m block = false -> v = [].
Proof.
  intros H Hc. rewrite re_search_no_occurrence in H by now apply contains_false.
  simpl in H. congruence.
Qed.

Lemma date_of_no_match block :
  re_search false date_re block = None -> date_of block = Some [].
Proof. intros H. unfold date_of. now rewrite H. Qed.

Lemma date_of_match block mt :
  re_search false date_re block = Some mt ->
  exists d pre suf,
    date_of block = Some d /\ block = pre ++ suf /\ date_here suf d
    /\ forall pre' suf' d',
         block = pre' ++ suf' -> date_here suf' d' -> length pre <= length pre'.
Proof.
  intros H. unfold date_of. rewrite H.
  apply re_search_leftmost in H as [pre [suf [rest [E [Hm Hmin]]]]].
  apply date_attempt_some in Hm as [d [-> Hd]].
  exists d, pre, suf. repeat split; try assumption.
  intros pre' suf' d' E' Hd'.
  destruct (Nat.le_gt_cases (length pre) (length pre')) as [Hle|Hgt]; [exact Hle|].
  apply date_here_attempt in Hd' as [rest' Hd'].
  rewrite (Hmin _ _ E' Hgt) in Hd'. discriminate.
Qed.

Lemma date_here_shape s d : date_here s d -> date_shape d = true.
Proof. now intros [ws [post [_ [_ H]]]]. Qed.

(** ** Properties of [parse_notes] *)

(** C1 (as amended). For every block of the split that yields a record,
    the block, once stripped, starts with [Client:], and the [Client]
    field is the text after the marker and after the whitespace that
    follows it (newlines included), up to the first newline or comma,
    stripped; it is not empty. When that text is empty the block yields
    no record. *)
Theorem client_field text b :
  In b (re_split split_re text) ->
  (forall r, process_block b = Ok (Some r) ->
     exists rest,
       strip b = marker ++ rest
       /\ Client r = strip (take_while name_char (lstrip rest))
       /\ Client r <> [])
  /\ (forall rest,
        strip b = marker ++ rest ->
        strip (take_while name_char (lstrip rest)) = [] ->
        process_block b = Ok None).
Proof.
  intros Hin.
  assert (H : only_at_head marker (strip b)).
  { apply only_at_head_strip; [exact marker_not_nil|].
    pose proof (re_split_only_at_head text) as HF.
    rewrite Forall_forall in HF. now apply HF. }
  split.
  - intros r Hr. apply process_block_client in Hr as [Hc Hne].
    destruct (starts_with marker (strip b)) eqn:Es.
    + apply starts_with_iff in Es as [rest Es]. exists rest.
      rewrite (client_name_of_block _ _ H Es) in Hc. injection Hc as Hc.
      repeat split; [exact Es | now symmetry | exact Hne].
    + rewrite (client_name_of_no_marker _ H Es) in Hc. congruence.
  - intros rest Es He. apply process_block_no_client.
    rewrite (client_name_of_block _ _ H Es). now rewrite He.
Qed.

Lemma client_field_witness :
  exists rest,
    strip name_on_next_line = marker ++ rest
    /\ py "Jane Doe" = strip (take_while name_char (lstrip rest))
    /\ py "Jane Doe" <> [].
Proof.
  refine (proj1 (client_field name_on_next_line name_on_next_line _)
            {| Client := py "Jane Doe"; Rendering_Provider := [];
               Date := Some []; Session_Time := [] |} _).
  - vm_compute. right. left. reflexivity.
  - vm_compute. reflexivity.
Defined.

(** C1 as stated fails: with the name on the line after the marker, the
    text between [Client:] and the first newline is empty, and the block
    still yields a record, whose [Client] is the name on the next line.
    So the statement with the text taken right after the marker does not
    hold for all blocks. *)
Lemma client_field_crosses_newline :
  In name_on_next_line (re_split split_re name_on_next_line)
  /\ strip name_on_next_line = marker ++ LF ++ py "Jane Doe, ID 123"
  /\ strip (take_while name_char (LF ++ py "Jane Doe, ID 123")) = []
  /\ (exists r, process_block name_on_next_line = Ok (Some r)
                /\ Client r = py "Jane Doe")
  /\ ~ (forall text b,
          In b (re_split split_re text) ->
          (forall r, process_block b = Ok (Some r) ->
             exists rest,
               strip b = marker ++ rest
               /\ Client r = strip (take_while name_char rest)
               /\ Client r <> [])
          /\ (forall rest,
                strip b = marker ++ rest ->
                strip (take_while name_char rest) = [] ->
                process_block b = Ok None)).
Proof.
  assert (Hin : In name_on_next_line (re_split split_re name_on_next_line))
    by (vm_compute; right; left; reflexivity).
  split; [exact Hin|].
  split; [reflexivity|]. split; [reflexivity|]. split.
  - eexists. split; [vm_compute; reflexivity | reflexivity].
  - intros H. destruct (H _ _ Hin) as [_ H2].
    specialize (H2 (LF ++ py "Jane Doe, ID 123") eq_refl eq_refl).
    vm_compute in H2. discriminate H2.
Qed.

(** C2 (failing input). A time range without a trailing AM or PM, followed
    by another line: the field keeps the newline after the range, so it
    is not the range trimmed of surrounding whitespace. *)
Theorem session_time_keeps_newline :
  exists r,
    parse_notes session_then_notes = Ok [r]
    /\ Session_Time r = py "9:00-10:00" ++ LF
    /\ strip (Session_Time r) = py "9:00-10:00"
    /\ Session_Time r <> strip (Session_Time r).
Proof.
  eexists. split; [vm_compute; reflexivity|].
  split; [reflexivity|]. split; [reflexivity | discriminate].
Qed.

(** C3. A text without the marker [Client:] yields no record. *)
Theorem no_marker_no_records text :
  contains marker text = false -> parse_notes text = Ok [].
Proof.
  intros H. rewrite parse_notes_flat_map. unfold re_split.
  rewrite split_no_marker by now apply contains_false.
  simpl. rewrite app_nil_r. unfold record_of.
  destruct (process_block text) as [[r|]|] eqn:E; try reflexivity.
  exfalso. apply process_block_client in E as [Hc Hne]. apply Hne.
  unfold client_name_of, client_re in Hc.
  apply (group1_strip_no_match _ _ _ _ Hc). change (py "Client:") with marker.
  destruct (contains marker (strip text)) eqn:Ec; [|reflexivity].
  apply contains_occurs in Ec as [pre [post Ec]].
  destruct (strip_decomp text) as [w1 [w2 Hw]]. rewrite Ec in Hw.
  assert (Ho : occurs marker text)
    by (exists (w1 ++ pre), (post ++ w2); rewrite Hw; now rewrite <- !app_assoc).
  apply contains_occurs in Ho. congruence.
Qed.

Lemma no_marker_no_records_witness :
  parse_notes (py "--- Page 1 ---  client: Jane Doe") = Ok [].
Proof. apply no_marker_no_records. reflexivity. Defined.

(** C4. The result is the rows of the blocks, block after block: every
    row has a non-empty [Client], rows keep the order of their blocks,
    and two blocks that each yield a row yield two rows, whether or not
    the rows are equal. *)
Theorem records_follow_blocks text :
  parse_notes text = Ok (flat_map record_of (re_split split_re text))
  /\ (forall rs r, parse_notes text = Ok rs -> In r rs -> Client r <> [])
  /\ (forall bs1 b1 bs2 b2 bs3 r1 r2,
        re_split split_re text = bs1 ++ b1 :: bs2 ++ b2 :: bs3 ->
        process_block b1 = Ok (Some r1) ->
        process_block b2 = Ok (Some r2) ->
        parse_notes text
        = Ok (flat_map record_of bs1 ++ r1 :: flat_map record_of bs2
              ++ r2 :: flat_map record_of bs3)).
Proof.
  split; [apply parse_notes_flat_map|]. split.
  - intros rs r. rewrite parse_notes_flat_map. intros [= <-] Hin.
    apply in_flat_map in Hin as [b [_ Hin]]. now apply record_of_client in Hin.
  - intros bs1 b1 bs2 b2 bs3 r1 r2 E H1 H2.
    rewrite parse_notes_flat_map, E.
    rewrite flat_map_app. cbn [flat_map]. rewrite flat_map_app. cbn [flat_map].
    unfold record_of at 2 4. now rewrite H1, H2.
Qed.

Lemma records_follow_blocks_witness :
  parse_notes (ann_first ++ ann_first)
  = Ok (flat_map record_of [[]] ++ ann_record (py "2024/01/15")
        :: flat_map record_of []
        ++ ann_record (py "2024/01/15") :: flat_map record_of []).
Proof.
  apply (proj2 (proj2 (records_follow_blocks (ann_first ++ ann_first)))
           [[]] ann_first [] ann_first []); vm_compute; reflexivity.
Defined.

(** C5. [parse_notes] raises nothing: every text has a list of rows. *)
Theorem parse_notes_total text : exists rs, parse_notes text = Ok rs.
Proof. rewrite parse_notes_flat_map. eauto. Qed.

(** C6. The end-to-end example of the specification. *)
Theorem end_to_end_jane : parse_notes jane_text = Ok [jane_record].
Proof. vm_compute. reflexivity. Qed.

(** C8. Two texts that each start with [Client:] and each yield one row:
    their concatenation yields the two rows, in that order. *)
Theorem splitting_stability a b ra rb :
  starts_with marker a = true -> starts_with marker b = true ->
  parse_notes a = Ok [ra] -> parse_notes b = Ok [rb] ->
  parse_notes (a ++ b) = Ok [ra; rb].
Proof.
  intros _ Hb Ha Hb'. rewrite (parse_notes_app a b Hb).
  rewrite parse_notes_flat_map in Ha, Hb'.
  injection Ha as ->. injection Hb' as ->. reflexivity.
Qed.

Lemma splitting_stability_witness :
  parse_notes (ann_first ++ ann_second)
  = Ok [ann_record (py "2024/01/15"); ann_record (py "2024/02/20")].
Proof.
  apply splitting_stability; vm_compute; reflexivity.
Defined.

(** C9. A block from which no non-empty [Client] is read adds nothing to
    the result, and raises nothing: the result is the rows of the blocks
    before it followed by the rows of the blocks after it, the same as
    for the list of blocks without it. *)
Theorem invalid_block_dropped text bs1 b bs2 :
  re_split split_re text = bs1 ++ b :: bs2 ->
  client_name_of (strip b) = Ok [] ->
  process_block b = Ok None
  /\ parse_notes text = Ok (flat_map record_of bs1 ++ flat_map record_of bs2)
  /\ parse_notes text = loop (bs1 ++ bs2) [].
Proof.
  intros E Hc. pose proof (process_block_no_client _ Hc) as Hb.
  split; [exact Hb|].
  assert (H : parse_notes text
              = Ok (flat_map record_of bs1 ++ flat_map record_of bs2)).
  { rewrite parse_notes_flat_map, E, flat_map_app. cbn [flat_map].
    unfold record_of at 2. now rewrite Hb. }
  split; [exact H|]. now rewrite H, loop_flat_map, flat_map_app.
Qed.

Lemma invalid_block_dropped_witness :
  process_block nameless_block = Ok None
  /\ parse_notes (ann_first ++ nameless_block ++ ann_second)
     = Ok (flat_map record_of [[]; ann_first] ++ flat_map record_of [ann_second])
  /\ parse_notes (ann_first ++ nameless_block ++ ann_second)
     = loop ([[]; ann_first] ++ [ann_second]) [].
Proof.
  apply invalid_block_dropped; vm_compute; reflexivity.
Defined.

(** ** Further examples *)

Example session_dash :
  parse_notes (py "Client: A" ++ LF ++ py "Session Time: -" ++ LF ++ py "Notes")
  = Ok [ {| Client := py "A"; Rendering_Provider := []; Date := Some [];
            Session_Time := [] |} ].
Proof. vm_compute. reflexivity. Qed.

Example session_meridiem :
  parse_notes (py "Client: A" ++ LF ++ py "Session Time: 9:00 AM - 10:00 AM"
               ++ LF ++ py "Notes")
  = Ok [ {| Client := py "A"; Rendering_Provider := []; Date := Some [];
            Session_Time := py "9:00 AM - 10:00 AM" |} ].
Proof. vm_compute. reflexivity. Qed.

Example date_not_anchored :
  parse_notes (py "Client: A" ++ LF ++ py "Date: 2024/01/155")
  = Ok [ {| Client := py "A"; Rendering_Provider := [];
            Date := Some (py "2024/01/15"); Session_Time := [] |} ].
Proof. vm_compute. reflexivity. Qed.

Example date_other_shape :
  parse_notes (py "Client: A" ++ LF ++ py "Date: 01/15/2024")
  = Ok [ {| Client := py "A"; Rendering_Provider := []; Date := Some [];
            Session_Time := [] |} ].
Proof. vm_compute. reflexivity. Qed.

Example preamble_dropped :
  parse_notes (py "--- Page 1 ---" ++ LF ++ jane_text) = Ok [jane_record].
Proof. vm_compute. reflexivity. Qed.

(** ** The blocks of a text *)

Lemma split_from_concat s : forall cur,
  concat (split_from split_re cur s) = cur ++ s.
Proof.
  induction s as [|x s IH]; intros cur; rewrite split_from_unfold.
  - simpl. now rewrite app_nil_r.
  - destruct (starts_with marker (x :: s)).
    + simpl. now rewrite IH.
    + rewrite IH. now rewrite <- app_assoc.
Qed.

Lemma starts_with_app_false m a w :
  starts_with m (a ++ w) = false -> starts_with m a = false.
Proof.
  intros H. destruct (starts_with m a) eqn:E; [|reflexivity].
  apply (starts_with_app_l _ _ w) in E. congruence.
Qed.

(** A block that was opened by a cut starts with the marker. *)
Lemma split_from_opened s : forall cur,
  cur <> [] -> starts_with marker (cur ++ s) = true ->
  Forall (fun b => starts_with marker b = true) (split_from split_re cur s).
Proof.
  induction s as [|x s IH]; intros cur Hc H; rewrite split_from_unfold.
  - rewrite app_nil_r in H. now repeat constructor.
  - destruct (starts_with marker (x :: s)) eqn:E.
    + constructor.
      * apply starts_with_iff in E as [r E]. rewrite E in H.
        now rewrite marker_straddle in H.
      * apply IH; [discriminate | exact E].
    + apply IH; [now destruct cur | now rewrite <- app_assoc].
Qed.

Lemma split_from_tail_opened s : forall cur,
  Forall (fun b => starts_with marker b = true)
         (tl (split_from split_re cur s)).
Proof.
  induction s as [|x s IH]; intros cur; rewrite split_from_unfold.
  - constructor.
  - destruct (starts_with marker (x :: s)) eqn:E; [|apply IH].
    simpl. apply split_from_opened; [discriminate | exact E].
Qed.

(** The first block does not start with the marker. *)
Lemma split_from_head s : forall cur,
  (cur <> [] -> starts_with marker (cur ++ s) = false) ->
  exists b0 bs,
    split_from split_re cur s = b0 :: bs /\ starts_with marker b0 = false.
Proof.
  assert (Hcur : forall cur w,
            (cur <> [] -> starts_with marker (cur ++ w) = false) ->
            starts_with marker cur = false).
  { intros [|c cur] w H; [reflexivity|].
    apply (starts_with_app_false _ _ w), H. discriminate. }
  induction s as [|x s IH]; intros cur H; rewrite split_from_unfold.
  - exists cur, []. split; [reflexivity | now apply (Hcur cur [])].
  - destruct (starts_with marker (x :: s)) eqn:E.
    + eexists _, _. split; [reflexivity | now apply (Hcur cur (x :: s))].
    + apply IH. intros _. rewrite <- app_assoc. simpl.
      destruct cur as [|c cur]; [exact E | apply H; discriminate].
Qed.

Lemma no_marker_in_block b :
  only_at_head marker b -> starts_with marker b = false ->
  contains marker b = false.
Proof.
  intros H Hs. destruct (contains marker b) eqn:E; [|reflexivity].
  apply contains_occurs in E as [pre [post E]].
  pose proof (H _ _ E) as ->.
  assert (Hc : starts_with marker b = true)
    by (apply starts_with_iff; now exists post).
  congruence.
Qed.

Lemma re_split_head text :
  exists b0 bs,
    re_split split_re text = b0 :: bs /\ contains marker b0 = false.
Proof.
  destruct (split_from_head text []) as [b0 [bs [E Hs]]]; [congruence|].
  exists b0, bs. split; [exact E|].
  apply no_marker_in_block; [|exact Hs].
  pose proof (re_split_only_at_head text) as HF. unfold re_split in HF.
  rewrite E in HF. now inversion HF.
Qed.

Lemma contains_strip m b :
  contains m b = false -> contains m (strip b) = false.
Proof.
  intros H. destruct (contains m (strip b)) eqn:E; [|reflexivity].
  apply contains_occurs in E as [pre [post E]].
  destruct (strip_decomp b) as [w1 [w2 Hw]]. rewrite E in Hw.
  assert (Ho : occurs m b)
    by (exists (w1 ++ pre), (post ++ w2); rewrite Hw; now rewrite <- !app_assoc).
  apply contains_occurs in Ho. congruence.
Qed.

Lemma process_block_no_marker b :
  contains marker b = false -> process_block b = Ok None.
Proof.
  intros H. apply process_block_no_client.
  destruct (client_name_of_ok (strip b)) as [v Hv]. rewrite Hv. f_equal.
  unfold client_name_of, client_re in Hv.
  apply (group1_strip_no_match _ _ _ _ Hv). now apply contains_strip.
Qed.

Lemma record_of_no_marker b : contains marker b = false -> record_of b = [].
Proof. intros H. unfold record_of. now rewrite process_block_no_marker. Qed.

Lemma record_of_length b : length (record_of b) <= 1.
Proof.
  unfold record_of. destruct (process_block b) as [[r|]|]; simpl; lia.
Qed.

Lemma flat_map_record_of_length bs :
  length (flat_map record_of bs) <= length bs.
Proof.
  induction bs as [|b bs IH]; simpl; [lia|].
  rewrite length_app. pose proof (record_of_length b). lia.
Qed.

Lemma split_from_length s : forall cur,
  length (split_from split_re cur s) = S (count_at marker s).
Proof.
  induction s as [|x s IH]; intros cur; rewrite split_from_unfold.
  - reflexivity.
  - cbn [count_at]. destruct (starts_with marker (x :: s)); simpl; now rewrite IH.
Qed.

Lemma parse_notes_rows text : parse_notes text = Ok (rows text).
Proof. apply parse_notes_flat_map. Qed.

(** X1. The blocks are a partition of the text: put end to end they give
    the text back; the first one holds no marker; every other one starts
    with the marker and holds it nowhere else. *)
Theorem blocks_partition text :
  concat (re_split split_re text) = text
  /\ (exists b0 bs,
        re_split split_re text = b0 :: bs
        /\ contains marker b0 = false
        /\ Forall (fun b => starts_with marker b = true
                            /\ contains marker (tl b) = false) bs).
Proof.
  split; [apply split_from_concat|].
  destruct (re_split_head text) as [b0 [bs [E H0]]].
  exists b0, bs. split; [exact E|]. split; [exact H0|].
  pose proof (split_from_tail_opened text []) as Ht.
  pose proof (re_split_only_at_head text) as Ho.
  unfold re_split in *. rewrite E in Ht, Ho. simpl in Ht.
  inversion Ho as [|? ? _ Ho']; subst.
  rewrite Forall_forall in *. intros b Hb. split; [now apply Ht|].
  destruct (contains marker (tl b)) eqn:Ec; [|reflexivity].
  apply contains_occurs in Ec as [pre [post Ec]].
  destruct b as [|c b]; [destruct pre; discriminate Ec|]. simpl in Ec.
  specialize (Ho' _ Hb (c :: pre) post). rewrite Ec in Ho'.
  discriminate Ho'. reflexivity.
Qed.

(** X2. There is at most one row for each place where the marker starts
    in the text. *)
Theorem rows_at_most_markers text rs :
  parse_notes text = Ok rs -> length rs <= count_at marker text.
Proof.
  rewrite parse_notes_flat_map. intros [= <-].
  destruct (re_split_head text) as [b0 [bs [E H0]]].
  pose proof (split_from_length text []) as Hl. unfold re_split in *.
  rewrite E in *. simpl in *. rewrite (record_of_no_marker _ H0). simpl.
  pose proof (flat_map_record_of_length bs). lia.
Qed.

Lemma rows_at_most_markers_witness :
  length [ann_record (py "2024/01/15"); ann_record (py "2024/02/20")]
  <= count_at marker (ann_first ++ nameless_block ++ ann_second).
Proof.
  apply rows_at_most_markers. vm_compute. reflexivity.
Defined.

(** ** Text around the blocks *)

Lemma split_from_cur s : forall cur,
  split_from split_re cur s
  = match split_from split_re [] s with
    | b0 :: bs => (cur ++ b0) :: bs
    | [] => []
    end.
Proof.
  induction s as [|x s IH]; intros cur;
    rewrite (split_from_unfold cur), (split_from_unfold []).
  - now rewrite app_nil_r.
  - destruct (starts_with marker (x :: s)).
    + now rewrite app_nil_r.
    + rewrite (IH (cur ++ [x])), (IH ([] ++ [x])).
      destruct (split_from split_re [] s); [reflexivity|].
      now rewrite <- app_assoc.
Qed.

Lemma split_from_prefix h t : cut_free h t -> forall cur,
  split_from split_re cur (h ++ t) = split_from split_re (cur ++ h) t.
Proof.
  induction h as [|y h IH]; intros Hf cur.
  - now rewrite app_nil_r.
  - change ((y :: h) ++ t) with (y :: (h ++ t)). rewrite split_from_unfold.
    change (y :: h ++ t) with ((y :: h) ++ t).
    rewrite (Hf [] (y :: h) eq_refl) by discriminate.
    rewrite IH; [now rewrite <- app_assoc|].
    intros h1 h2 E Hne. apply (Hf (y :: h1) h2); [now rewrite E | exact Hne].
Qed.

Lemma rows_skip_prefix h t : cut_free h t -> rows (h ++ t) = rows t.
Proof.
  intros Hf. unfold rows.
  destruct (re_split_head (h ++ t)) as [c0 [cs [Ec Hc]]].
  destruct (re_split_head t) as [b0 [bs [Eb Hb]]].
  rewrite Ec, Eb. simpl.
  rewrite (record_of_no_marker _ Hc), (record_of_no_marker _ Hb). simpl.
  unfold re_split in *. rewrite (split_from_prefix _ _ Hf) in Ec.
  rewrite split_from_cur, Eb in Ec. now injection Ec as _ <-.
Qed.

Lemma starts_with_contains m a b :
  starts_with m b = true -> contains m (a ++ b) = true.
Proof.
  intros H. apply contains_occurs. apply starts_with_iff in H as [r ->].
  now exists a, r.
Qed.

Lemma cut_free_before_marker pre t :
  contains marker pre = false -> starts_with marker t = true ->
  cut_free pre t.
Proof.
  intros Hp Ht h1 h2 E Hne. apply starts_with_iff in Ht as [r ->].
  rewrite marker_straddle by exact Hne.
  destruct (starts_with marker h2) eqn:Es; [|reflexivity].
  apply (starts_with_contains _ h1) in Es. rewrite <- E in Es. congruence.
Qed.

Lemma starts_with_skip m x : ~ In x m -> forall a b,
  starts_with m (a ++ x :: b) = starts_with m a.
Proof.
  induction m as [|c m IH]; intros Hx a b; [reflexivity|].
  destruct a as [|y a]; simpl.
  - destruct (N.eqb_spec x c) as [->|]; [|reflexivity].
    exfalso. apply Hx. now left.
  - rewrite IH; [reflexivity|]. intros Hi. apply Hx. now right.
Qed.

Lemma cut_free_closed h x t :
  ~ In x marker -> contains marker (h ++ [x]) = false ->
  cut_free (h ++ [x]) t.
Proof.
  intros Hx Hc h1 h2 E Hne.
  destruct (exists_last Hne) as [h2' [z ->]].
  rewrite app_assoc in E. apply app_inj_tail in E as [E <-].
  rewrite <- app_assoc. cbn [app]. rewrite (starts_with_skip _ _ Hx).
  destruct (starts_with marker h2') eqn:Es; [|reflexivity].
  apply (starts_with_contains _ h1) in Es. rewrite <- E in Es.
  apply contains_occurs in Es as [p [q Es]].
  assert (Ho : occurs marker (h ++ [x]))
    by (exists p, (q ++ [x]); rewrite Es; now rewrite <- !app_assoc).
  apply contains_occurs in Ho. congruence.
Qed.

Lemma space_not_in_marker x : isspace x = true -> ~ In x marker.
Proof.
  intros Hx Hi. rewrite marker_chars in Hi. simpl in Hi.
  repeat (destruct Hi as [<-|Hi]; [discriminate Hx|]). exact Hi.
Qed.

Lemma space_no_marker w : forallb isspace w = true -> contains marker w = false.
Proof.
  induction w as [|x w IH]; [reflexivity|]. cbn [forallb contains].
  intros H. apply andb_true_iff in H as [Hx Hw].
  rewrite (IH Hw), orb_false_r.
  change (x :: w) with ([] ++ x :: w).
  now rewrite (starts_with_skip _ _ (space_not_in_marker _ Hx)).
Qed.

Lemma cut_free_space w t : forallb isspace w = true -> cut_free w t.
Proof.
  intros Hw. destruct w as [|y w0].
  - intros h1 h2 E Hne. symmetry in E. apply app_eq_nil in E as [_ E].
    congruence.
  - assert (Hne : y :: w0 <> []) by discriminate.
    destruct (exists_last Hne) as [w' [x E]]. rewrite E in *.
    apply cut_free_closed.
    + apply space_not_in_marker. rewrite forallb_app in Hw.
      apply andb_true_iff in Hw as [_ Hx]. simpl in Hx.
      now rewrite andb_true_r in Hx.
    + now apply space_no_marker.
Qed.

Lemma drop_while_app_all (p : char -> bool) a b :
  forallb p a = true -> drop_while p (a ++ b) = drop_while p b.
Proof.
  induction a as [|x a IH]; simpl; [reflexivity|].
  destruct (p x); [exact IH | discriminate].
Qed.

Lemma forallb_rev (p : char -> bool) w :
  forallb p w = true -> forallb p (rev w) = true.
Proof.
  rewrite !forallb_forall. intros H x Hx. apply H. now apply in_rev.
Qed.

Lemma rstrip_app_space l w :
  forallb isspace w = true -> rstrip (l ++ w) = rstrip l.
Proof.
  intros Hw. unfold rstrip. rewrite rev_app_distr.
  now rewrite (drop_while_app_all _ _ _ (forallb_rev _ _ Hw)).
Qed.

Lemma strip_app_space s w :
  forallb isspace w = true -> strip (s ++ w) = strip s.
Proof.
  intros Hw. unfold strip, lstrip.
  induction s as [|x s IH]; simpl.
  - now rewrite (drop_while_all _ _ Hw).
  - destruct (isspace x); [exact IH|].
    change (x :: s ++ w) with ((x :: s) ++ w). now apply rstrip_app_space.
Qed.

Lemma process_block_trailing b w :
  forallb isspace w = true -> process_block (b ++ w) = process_block b.
Proof. intros Hw. unfold process_block. now rewrite strip_app_space. Qed.

Lemma starts_with_trailing w : forallb isspace w = true -> forall a,
  starts_with marker (a ++ w) = starts_with marker a.
Proof.
  intros Hw a. destruct w as [|x w]; [now rewrite app_nil_r|].
  simpl in Hw. apply andb_true_iff in Hw as [Hx _].
  apply starts_with_skip. now apply space_not_in_marker.
Qed.

Lemma rows_trailing_space w s :
  forallb isspace w = true -> forall cur,
    flat_map record_of (split_from split_re cur (s ++ w))
    = flat_map record_of (split_from split_re cur s).
Proof.
  intros Hw. induction s as [|x s IH]; intros cur.
  - rewrite app_nil_l, split_no_marker
      by (apply contains_false; now apply space_no_marker).
    rewrite split_from_unfold. simpl. unfold record_of.
    now rewrite process_block_trailing.
  - change ((x :: s) ++ w) with (x :: (s ++ w)).
    rewrite (split_from_unfold cur (x :: s ++ w)), (split_from_unfold cur (x :: s)).
    change (x :: s ++ w) with ((x :: s) ++ w).
    rewrite (starts_with_trailing _ Hw).
    destruct (starts_with marker (x :: s)); [simpl; now rewrite IH | apply IH].
Qed.

(** X3. Whitespace in front of the text and after it changes nothing. *)
Theorem surrounding_space_ignored w1 text w2 :
  forallb isspace w1 = true -> forallb isspace w2 = true ->
  parse_notes (w1 ++ text ++ w2) = parse_notes text.
Proof.
  intros H1 H2. rewrite !parse_notes_rows. f_equal.
  rewrite (rows_skip_prefix _ _ (cut_free_space _ _ H1)).
  unfold rows, re_split. now apply rows_trailing_space.
Qed.

Lemma surrounding_space_ignored_witness :
  parse_notes ((LF ++ py "  ") ++ jane_text ++ (py " " ++ LF ++ LF))
  = parse_notes jane_text.
Proof. apply surrounding_space_ignored; reflexivity. Defined.

(** X4. Text in front of the first marker is ignored: with no marker in
    [pre] and a text that starts with the marker, the rows are those of
    the text alone. *)
Theorem preamble_ignored pre text :
  contains marker pre = false -> starts_with marker text = true ->
  parse_notes (pre ++ text) = parse_notes text.
Proof.
  intros Hp Ht. rewrite !parse_notes_rows. f_equal.
  apply rows_skip_prefix. now apply cut_free_before_marker.
Qed.

Lemma preamble_ignored_witness :
  parse_notes (py "HiRasmus export, client list" ++ jane_text)
  = parse_notes jane_text.
Proof. apply preamble_ignored; reflexivity. Defined.

(** X5. Parsing goes through concatenation at a marker: when the second
    text starts with the marker, the rows of the two texts put together
    are the rows of the first followed by the rows of the second,
    however many rows each has. *)
Theorem rows_of_concatenation a b ra rb :
  starts_with marker b = true ->
  parse_notes a = Ok ra -> parse_notes b = Ok rb ->
  parse_notes (a ++ b) = Ok (ra ++ rb).
Proof.
  intros Hb Ha Hb'. rewrite (parse_notes_app a b Hb).
  rewrite parse_notes_flat_map in Ha, Hb'.
  injection Ha as ->. injection Hb' as ->. reflexivity.
Qed.

Lemma rows_of_concatenation_witness :
  parse_notes ((ann_first ++ nameless_block ++ ann_second) ++ nameless_block)
  = Ok ([ann_record (py "2024/01/15"); ann_record (py "2024/02/20")] ++ []).
Proof. apply rows_of_concatenation; vm_compute; reflexivity. Defined.

(** ** What a field can hold *)

Lemma forallb_drop_while (p q : char -> bool) s :
  forallb q s = true -> forallb q (drop_while p s) = true.
Proof.
  induction s as [|x s IH]; simpl; [reflexivity|].
  intros H. destruct (p x); [|exact H].
  apply andb_true_iff in H as [_ H]. now apply IH.
Qed.

Lemma forallb_strip (q : char -> bool) s :
  forallb q s = true -> forallb q (strip s) = true.
Proof.
  intros H. unfold strip, rstrip, lstrip.
  now apply forallb_rev, forallb_drop_while, forallb_rev, forallb_drop_while.
Qed.

Lemma drop_while_nil_all (p : char -> bool) s :
  drop_while p s = [] -> forallb p s = true.
Proof.
  induction s as [|x s IH]; simpl; [reflexivity|].
  destruct (p x); [exact IH | discriminate].
Qed.

Lemma drop_while_idem (p : char -> bool) s :
  drop_while p (drop_while p s) = drop_while p s.
Proof.
  induction s as [|x s IH]; simpl; [reflexivity|].
  destruct (p x) eqn:E; [exact IH | simpl; now rewrite E].
Qed.

Lemma rstrip_keeps_head x l :
  isspace x = false -> exists l', rstrip (x :: l) = x :: l'.
Proof.
  intros Hx. destruct (rstrip_decomp (x :: l)) as [w Hw].
  destruct (rstrip (x :: l)) as [|y l'] eqn:E.
  - exfalso. unfold rstrip in E.
    apply (f_equal (@rev char)) in E. rewrite rev_involutive in E.
    apply drop_while_nil_all in E. rewrite forallb_forall in E.
    specialize (E x). rewrite Hx in E. discriminate E.
    apply -> in_rev. now left.
  - injection Hw as <- _. now exists l'.
Qed.

(** A stripped string has no whitespace at either end. *)
Lemma strip_idem s : strip (strip s) = strip s.
Proof.
  unfold strip at 2 3. destruct (lstrip s) as [|x l] eqn:E; [reflexivity|].
  assert (Hx : isspace x = false).
  { unfold lstrip in E. clear -E. induction s as [|y s IH]; [discriminate|].
    simpl in E. destruct (isspace y) eqn:Ey; [now apply IH|].
    now injection E as <- _. }
  destruct (rstrip_keeps_head x l Hx) as [l' El].
  unfold strip. rewrite El. unfold lstrip. rewrite (drop_while_head _ _ _ Hx).
  rewrite <- El. unfold rstrip. rewrite rev_involutive.
  now rewrite drop_while_idem.
Qed.

(** The group of a pattern [m\s*(p+)] holds characters of [p] only. *)
Lemma group_plus_chars ic m p s mt :
  re_search ic (seq [lit m; Rep isspace 0 None; Grp (Rep p 1 None)]) s = Some mt ->
  exists t, group1 mt = Some t /\ forallb p t = true.
Proof.
  intros H. apply re_search_some in H as [pre [suf [rest [_ H]]]].
  revert H. rewrite rmatch_seq_cons, rmatch_lit.
  destruct (strip_lit ic m suf) as [s1|]; [|discriminate].
  rewrite rmatch_seq_cons. cbn [rmatch]. intros H.
  apply rep_greedy_cont in H as [s2 H]. rewrite rmatch_group_plus in H.
  destruct (take_while p s2) as [|y t] eqn:Et; [discriminate|].
  injection H as _ <-. exists (y :: t). split; [reflexivity|].
  rewrite <- Et. apply take_while_all.
Qed.

Lemma group1_strip_chars ic m p s v :
  group1_strip
    (re_search ic (seq [lit m; Rep isspace 0 None; Grp (Rep p 1 None)]) s)
  = Ok v ->
  forallb p v = true /\ strip v = v.
Proof.
  destruct (re_search ic _ s) as [mt|] eqn:E; simpl.
  - destruct (group_plus_chars _ _ _ _ _ E) as [t [-> Ht]].
    intros [= <-]. split; [now apply forallb_strip | apply strip_idem].
  - intros [= <-]. now split.
Qed.

(** X6. In every row, [Client] holds no newline and no comma,
    [Rendering Provider] holds no newline, and neither has whitespace at
    its start or at its end. *)
Theorem name_fields_clean b r :
  process_block b = Ok (Some r) ->
  forallb name_char (Client r) = true
  /\ strip (Client r) = Client r
  /\ forallb line_char (Rendering_Provider r) = true
  /\ strip (Rendering_Provider r) = Rendering_Provider r.
Proof.
  intros H. apply process_block_fields in H as [Hc [Hp _]].
  unfold client_name_of, client_re in Hc.
  unfold provider_of, provider_re in Hp.
  apply group1_strip_chars in Hc as [Hc1 Hc2].
  apply group1_strip_chars in Hp as [Hp1 Hp2].
  repeat split; assumption.
Qed.

Lemma name_fields_clean_witness :
  forallb name_char (Client jane_record) = true
  /\ strip (Client jane_record) = Client jane_record
  /\ forallb line_char (Rendering_Provider jane_record) = true
  /\ strip (Rendering_Provider jane_record) = Rendering_Provider jane_record.
Proof.
  apply (name_fields_clean jane_text). vm_compute. reflexivity.
Defined.

(** ** The first marker of a field *)

Lemma strip_lit_split ic m : forall s rest,
  strip_lit ic m s = Some rest ->
  exists mm, s = mm ++ rest /\ length mm = length m.
Proof.
  induction m as [|c m IH]; intros s rest; simpl.
  - intros [= <-]. now exists [].
  - destruct s as [|x s]; [discriminate|].
    destruct (chr_eq ic c x); [|discriminate].
    intros H. apply IH in H as [mm [-> Hl]].
    exists (x :: mm). simpl. now rewrite Hl.
Qed.

Lemma re_search_skip ic m rs x s :
  strip_lit ic m (x :: s) = None ->
  re_search ic (seq (lit m :: rs)) (x :: s) = re_search ic (seq (lit m :: rs)) s.
Proof.
  intros H. rewrite re_search_unfold, rmatch_seq_cons, rmatch_lit. now rewrite H.
Qed.

(** The search starts at the first place where the literal is read. *)
Lemma re_search_first_lit ic m rs : forall s pre rest,
  first_lit ic m s = Some (pre, rest) ->
  exists mm,
    s = pre ++ mm ++ rest /\ strip_lit ic m (mm ++ rest) = Some rest
    /\ re_search ic (seq (lit m :: rs)) s
       = re_search ic (seq (lit m :: rs)) (mm ++ rest).
Proof.
  induction s as [|x s IH]; intros pre rest; cbn [first_lit].
  - destruct (strip_lit ic m []) as [r|] eqn:E; [|discriminate].
    intros [= <- <-]. destruct (strip_lit_split _ _ _ _ E) as [mm [Es _]].
    exists mm. rewrite <- Es. now repeat split.
  - destruct (strip_lit ic m (x :: s)) as [r|] eqn:E.
    + intros [= <- <-]. destruct (strip_lit_split _ _ _ _ E) as [mm [Es _]].
      exists mm. rewrite <- Es. now repeat split.
    + destruct (first_lit ic m s) as [[p r]|]; [|discriminate].
      intros [= <- <-]. destruct (IH p r eq_refl) as [mm [Es [Hm Hs]]].
      exists mm. rewrite (re_search_skip _ _ _ _ _ E). rewrite Es at 1.
      now repeat split.
Qed.

Lemma re_search_first_lit_none ic m rs : forall s,
  first_lit ic m s = None -> re_search ic (seq (lit m :: rs)) s = None.
Proof.
  induction s as [|x s IH]; cbn [first_lit].
  - destruct (strip_lit ic m []) eqn:E; [discriminate|]. intros _.
    rewrite re_search_unfold, rmatch_seq_cons, rmatch_lit. now rewrite E.
  - destruct (strip_lit ic m (x :: s)) eqn:E; [discriminate|].
    destruct (first_lit ic m s) as [[p r]|]; [discriminate|]. intros _.
    rewrite (re_search_skip _ _ _ _ _ E). now apply IH.
Qed.

(** [\s*] in front of a group [(p+)]: the general form of [client_tail]. *)
Lemma group_after_space (p : char -> bool) (k : cont) :
  (forall s g, k s g = match take_while p s with
                       | [] => None
                       | t => Some (drop_while p s, Some t)
                       end) ->
  forall rest,
    match rep_greedy isspace 0 None rest None k with
    | Some (_, Some t) => strip t = strip (take_while p (lstrip rest))
    | Some (_, None) => False
    | None => take_while p (lstrip rest) = []
    end.
Proof.
  intros Hk. induction rest as [|x rest IH].
  - simpl. rewrite Hk. reflexivity.
  - cbn [rep_greedy may_take andb option_map pred]. rewrite andb_true_r.
    unfold lstrip. cbn [drop_while]. destruct (isspace x) eqn:Ex.
    + destruct (rep_greedy isspace 0 None rest None k) as [[s' [t|]]|] eqn:E;
        try exact IH.
      rewrite Hk.
      destruct (take_while p (x :: rest)) as [|y t] eqn:Et; [exact IH|].
      fold (lstrip rest). rewrite IH. change (strip []) with (@nil char).
      apply strip_all_space. rewrite <- Et.
      apply (take_while_after_space p (x :: rest)).
      unfold lstrip. simpl. rewrite Ex. exact IH.
    + rewrite Hk. destruct (take_while p (x :: rest)); reflexivity.
Qed.

Lemma in_after_prefix (x : char) : forall a b u v,
  a ++ b = u ++ x :: v -> length a <= length u -> In x b.
Proof.
  induction a as [|y a IH]; intros b u v E Hl.
  - simpl in E. rewrite E. apply in_or_app. right. now left.
  - destruct u as [|z u]; [simpl in Hl; lia|].
    injection E as _ E. apply (IH _ _ _ E). simpl in Hl. lia.
Qed.

(** After a marker that ends with a character that is not whitespace and
    is followed by whitespace only, the marker does not occur again. *)
Lemma no_later_marker m c rest :
  isspace c = false -> forallb isspace rest = true ->
  ~ occurs (m ++ [c]) (tl ((m ++ [c]) ++ rest)).
Proof.
  intros Hc Hr [p [q E]].
  assert (E' : (m ++ [c]) ++ rest
               = (hd 0%N ((m ++ [c]) ++ rest) :: p ++ m) ++ c :: q).
  { destruct ((m ++ [c]) ++ rest) as [|y l] eqn:El.
    - destruct m; discriminate El.
    - simpl in E. simpl. rewrite E. now rewrite <- !app_assoc. }
  apply in_after_prefix in E'.
  - rewrite forallb_forall in Hr. apply Hr in E'. congruence.
  - simpl. rewrite !length_app. simpl. lia.
Qed.

Lemma lstrip_nil_all s : lstrip s = [] -> forallb isspace s = true.
Proof. apply drop_while_nil_all. Qed.

Lemma lstrip_head s x l : lstrip s = x :: l -> isspace x = false.
Proof.
  unfold lstrip. induction s as [|y s IH]; [discriminate|]. simpl.
  destruct (isspace y) eqn:Ey; [exact IH | now intros [= <- _]].
Qed.

Lemma plus_group_attempt m p rest :
  match rmatch false (seq [lit m; Rep isspace 0 None; Grp (Rep p 1 None)])
          (m ++ rest) None accept with
  | Some (_, Some t) => strip t = strip (take_while p (lstrip rest))
  | Some (_, None) => False
  | None => take_while p (lstrip rest) = []
  end.
Proof.
  rewrite rmatch_seq_cons, rmatch_lit.
  assert (E : strip_lit false m (m ++ rest) = Some rest)
    by now apply strip_lit_exact.
  rewrite E, rmatch_seq_cons. cbn [rmatch].
  apply group_after_space. intros s g. apply rmatch_group_plus.
Qed.

Lemma provider_first_marker block pre rest :
  first_lit false provider_marker block = Some (pre, rest) ->
  provider_of block = Ok (strip (take_while line_char (lstrip rest))).
Proof.
  intros H. unfold provider_of, provider_re. fold provider_marker.
  destruct (re_search_first_lit false provider_marker
              [Rep isspace 0 None; Grp (Rep (none_of [10%N]) 1 None)]
              _ _ _ H) as [mm [_ [Hm ->]]].
  apply strip_lit_exact in Hm. apply app_inv_tail in Hm as ->.
  pose proof (plus_group_attempt provider_marker line_char rest) as A.
  rewrite re_search_unfold. unfold line_char in A at 1.
  destruct (rmatch false _ (provider_marker ++ rest) None accept)
    as [[s' [t|]]|].
  - simpl. now rewrite A.
  - contradiction.
  - rewrite A. change (strip []) with (@nil char).
    assert (Hr : forallb isspace rest = true).
    { apply lstrip_nil_all. destruct (lstrip rest) as [|x l] eqn:El;
        [reflexivity|].
      pose proof (lstrip_head _ _ _ El) as Hx. simpl in A.
      unfold line_char, none_of in A. simpl in A.
      destruct (N.eqb_spec x 10) as [->|]; [discriminate Hx | discriminate A]. }
    assert (Et : provider_marker ++ rest
                 = hd 0%N (provider_marker ++ rest)
                   :: tl (provider_marker ++ rest)) by reflexivity.
    rewrite Et. cbv beta iota.
    rewrite re_search_no_occurrence; [reflexivity|].
    exact (no_later_marker (py "Rendering Provider") 58%N rest eq_refl Hr).
Qed.

Lemma provider_no_marker block :
  first_lit false provider_marker block = None -> provider_of block = Ok [].
Proof.
  intros H. unfold provider_of, provider_re. fold provider_marker.
  now rewrite re_search_first_lit_none.
Qed.

Lemma first_lit_exact m : forall s pre rest,
  first_lit false m s = Some (pre, rest) -> s = pre ++ m ++ rest.
Proof.
  intros s pre rest H.
  destruct (re_search_first_lit false m [] _ _ _ H) as [mm [E [Hm _]]].
  apply strip_lit_exact in Hm. apply app_inv_tail in Hm as ->. exact E.
Qed.

(** X7. The [Rendering Provider] field is read at the first marker
    [Rendering Provider:] of the block: it is the text after the marker
    and the whitespace that follows it (newlines included), up to the
    next newline, stripped. Without the marker it is empty. *)
Theorem provider_field b r :
  process_block b = Ok (Some r) ->
  (first_lit false provider_marker (strip b) = None ->
   Rendering_Provider r = [])
  /\ (forall pre rest,
        first_lit false provider_marker (strip b) = Some (pre, rest) ->
        strip b = pre ++ provider_marker ++ rest
        /\ Rendering_Provider r
           = strip (take_while line_char (lstrip rest))).
Proof.
  intros H. apply process_block_fields in H as [_ [Hp _]]. split.
  - intros Hn. rewrite (provider_no_marker _ Hn) in Hp. congruence.
  - intros pre rest Hf. split; [now apply first_lit_exact|].
    rewrite (provider_first_marker _ _ _ Hf) in Hp. congruence.
Qed.

Lemma provider_field_witness :
  strip jane_text
  = py "Client: Jane Doe, ID 123" ++ LF ++ provider_marker
    ++ (py " Dr. Smith" ++ LF ++ py "Date: 2024/01/15" ++ LF
        ++ py "Session Time: 9:00-10:00")
  /\ Rendering_Provider jane_record
     = strip (take_while line_char
                (lstrip (py " Dr. Smith" ++ LF ++ py "Date: 2024/01/15" ++ LF
                         ++ py "Session Time: 9:00-10:00"))).
Proof.
  refine (proj2 (provider_field jane_text jane_record _)
            (py "Client: Jane Doe, ID 123" ++ LF) _ _);
    vm_compute; reflexivity.
Defined.

(** ** What a match reads *)

Lemma rep_greedy_consumed p k g m : forall s lo hi,
  rep_greedy p lo hi s g k = Some m ->
  exists c s', s = c ++ s' /\ k s' g = Some m.
Proof.
  induction s as [|x s IH]; intros lo hi; simpl.
  - destruct lo; [|discriminate]. intros H. now exists [], [].
  - destruct (p x && may_take hi).
    + destruct (rep_greedy p (pred lo) (option_map pred hi) s g k) eqn:E.
      * intros [= <-]. apply IH in E as [c [s' [-> E]]].
        now exists (x :: c), s'.
      * destruct lo; [|discriminate]. intros H. now exists [], (x :: s).
    + destruct lo; [|discriminate]. intros H. now exists [], (x :: s).
Qed.

Lemma rep_greedy_first p k g m s lo hi :
  rep_greedy p (S lo) hi s g k = Some m ->
  exists x c s', s = x :: c ++ s' /\ p x = true /\ k s' g = Some m.
Proof.
  destruct s as [|x s]; simpl; [discriminate|].
  destruct (p x) eqn:Ex; simpl; [|discriminate].
  destruct (may_take hi); [|discriminate].
  destruct (rep_greedy p lo (option_map pred hi) s g k) eqn:E; [|discriminate].
  intros [= <-]. apply rep_greedy_consumed in E as [c [s' [-> E]]].
  now exists x, c, s'.
Qed.

(** The continuation of a match runs on what is left of the text. *)
Lemma rmatch_consumed ic r : forall s g k m,
  rmatch ic r s g k = Some m ->
  exists c s' g', s = c ++ s' /\ k s' g' = Some m.
Proof.
  induction r as [|c0|r1 IH1 r2 IH2|r1 IH1 r2 IH2|r1 IH1|p lo hi|r1 IH1|r1 IH1];
    intros s g k m; simpl.
  - intros H. now exists [], s, g.
  - destruct s as [|x s]; [discriminate|].
    destruct (chr_eq ic c0 x); [|discriminate]. intros H. now exists [x], s, g.
  - intros H. apply IH1 in H as [c1 [s1 [g1 [-> H]]]].
    apply IH2 in H as [c2 [s2 [g2 [-> H]]]].
    exists (c1 ++ c2), s2, g2. now rewrite <- app_assoc.
  - destruct (rmatch ic r1 s g k) eqn:E;
      [intros [= <-]; eapply IH1, E | apply IH2].
  - destruct (rmatch ic r1 s g k) eqn:E; [intros [= <-]; eapply IH1, E|].
    intros H. now exists [], s, g.
  - intros H. apply rep_greedy_consumed in H as [c [s' [-> H]]].
    now exists c, s', g.
  - intros H. apply IH1 in H as [c1 [s1 [g1 [-> H]]]]. eauto.
  - destruct (rmatch ic r1 s g accept) as [[s1 g1]|]; [|discriminate].
    intros H. now exists [], s, g1.
Qed.

(** A time range starts with a digit. *)
Lemma range_consumed s g k m :
  rmatch true range_re s g k = Some m ->
  exists d c s' g',
    s = d :: c ++ s' /\ digit d = true /\ k s' g' = Some m.
Proof.
  unfold range_re, clock_re. rewrite !rmatch_seq_cons. cbn [rmatch].
  intros H. apply rep_greedy_first in H as [d [c1 [s1 [-> [Hd H]]]]].
  apply rmatch_consumed in H as [c2 [s2 [g2 [-> H]]]].
  apply rmatch_consumed in H as [c3 [s3 [g3 [-> H]]]].
  exists d, (c1 ++ c2 ++ c3), s3, g3. rewrite <- !app_assoc. now repeat split.
Qed.

(** The group of what follows the marker: nothing, or a text that starts
    with a digit and stands at the head of the text once the whitespace
    in front is dropped. *)
Lemma session_tail_group rest :
  exists s' g,
    rmatch true session_tail rest None accept = Some (s', g)
    /\ match g with
       | Some t =>
           exists d t' post,
             t = d :: t' /\ digit d = true /\ lstrip rest = t ++ post
       | None => True
       end.
Proof.
  unfold session_tail. rewrite rmatch_seq_cons. cbn [rmatch].
  assert (Hk : forall s2 : str,
             exists s' g,
               rmatch true (seq [Opt (Alt (Grp range_re) (Chr 45%N))])
                 s2 None accept = Some (s', g)
               /\ match g with
                  | Some t =>
                      exists d t' post,
                        t = d :: t' /\ digit d = true /\ s2 = t ++ post
                  | None => True
                  end).
  { intros s2. cbn [seq fold_right]. cbn [rmatch].
    destruct (rmatch true range_re s2 None _) as [m|] eqn:E.
    - apply range_consumed in E as [d [c [s3 [g3 [E1 [Hd E2]]]]]].
      unfold accept in E2. injection E2 as <-. subst s2.
      change (d :: c ++ s3) with ((d :: c) ++ s3). rewrite firstn_consumed.
      eexists _, _. split; [reflexivity|]. now exists d, c, s3.
    - destruct s2 as [|x s2]; [now exists [], None|].
      destruct (chr_eq true 45%N x); eexists _, None; now split. }
  rewrite (rep_greedy_total isspace _ None).
  - rewrite run_len_unbounded, skipn_take_while. simpl. apply Hk.
  - intros s2. destruct (Hk s2) as [s' [g [E _]]]. now rewrite E.
Qed.

Lemma session_first_marker block pre rest :
  first_lit true session_marker block = Some (pre, rest) ->
  session_time_of block = []
  \/ exists d t post,
       session_time_of block = d :: t /\ digit d = true
       /\ lstrip rest = (d :: t) ++ post.
Proof.
  intros H. unfold session_time_of, session_re. fold session_marker.
  destruct (re_search_first_lit true session_marker
              [Rep isspace 0 None; Opt (Alt (Grp range_re) (Chr 45%N))]
              _ _ _ H) as [mm [_ [Hm ->]]].
  rewrite re_search_unfold, rmatch_seq_cons, rmatch_lit, Hm.
  fold session_tail.
  destruct (session_tail_group rest) as [s' [g [-> Hg]]]. simpl.
  destruct g as [t|]; [|now left].
  destruct Hg as [d [t' [post [-> [Hd E]]]]]. right. now exists d, t', post.
Qed.

(** X8. The [Session Time] field is read at the first marker of the
    block, in any case, and nowhere else: it is empty, or it starts with
    a digit and is the text that stands right after that marker and the
    whitespace that follows it. If what stands there does not start with
    a digit the field is empty, whatever later markers are followed by.
    Without a marker it is empty. *)
Theorem session_field_first_marker b r :
  process_block b = Ok (Some r) ->
  (first_lit true session_marker (strip b) = None -> Session_Time r = [])
  /\ (forall pre rest,
        first_lit true session_marker (strip b) = Some (pre, rest) ->
        (Session_Time r = []
         \/ exists d t post,
              Session_Time r = d :: t /\ digit d = true
              /\ lstrip rest = (d :: t) ++ post)
        /\ (match lstrip rest with x :: _ => digit x | [] => false end = false ->
            Session_Time r = [])).
Proof.
  intros H. apply process_block_fields in H as [_ [_ [_ ->]]]. split.
  - intros Hn. unfold session_time_of, session_re. fold session_marker.
    now rewrite re_search_first_lit_none.
  - intros pre rest Hf. pose proof (session_first_marker _ _ _ Hf) as Hs.
    split; [exact Hs|]. intros Hd.
    destruct Hs as [Hs|[d [t [post [Hs [Hdig E]]]]]]; [exact Hs|].
    rewrite E in Hd. simpl in Hd. congruence.
Qed.

Lemma session_field_first_marker_witness :
  Session_Time {| Client := py "A"; Rendering_Provider := [];
                  Date := Some []; Session_Time := [] |} = [].
Proof.
  refine (proj2 (proj2 (session_field_first_marker two_session_lines _ _)
                  (py "Client: A" ++ LF)
                  (py " n/a" ++ LF ++ py "Session Time: 9:00-10:00") _) _);
    vm_compute; reflexivity.
Defined.

(** ** The text of a document *)

Lemma pages_loop_concat pl pages : forall n acc,
  concat (pages_loop pl pages n acc) = concat acc ++ pages_text pl pages n.
Proof.
  induction pages as [|pg pages IH]; intros n acc; simpl.
  - now rewrite app_nil_r.
  - rewrite IH, concat_app. simpl. now rewrite app_nil_r, <- app_assoc.
Qed.

Lemma pdf_text_pages doc pl : pdf_bytes_to_text doc pl = pages_text pl doc 0.
Proof. unfold pdf_bytes_to_text. now rewrite pages_loop_concat. Qed.

Lemma page_chunk_header n text :
  page_chunk n text = page_header n ++ text ++ LF ++ LF.
Proof. unfold page_chunk, page_header. now rewrite <- !app_assoc. Qed.

Lemma page_header_chars n t :
  page_header n ++ t
  = py "--- Page" ++ 32%N :: decimal (n + 1) ++ 32%N :: py "---" ++ 10%N :: t.
Proof. unfold page_header, LF. rewrite <- !app_assoc. reflexivity. Qed.

Lemma contains_split m x : ~ In x m -> forall a b,
  contains m (a ++ x :: b) = contains m a || contains m b.
Proof.
  intros Hx a b. induction a as [|y a IH].
  - cbn [app contains]. change (x :: b) with ([] ++ x :: b) at 1.
    rewrite (starts_with_skip _ _ Hx). now rewrite orb_false_r.
  - change ((y :: a) ++ x :: b) with (y :: (a ++ x :: b)). cbn [contains].
    change (y :: a ++ x :: b) with ((y :: a) ++ x :: b).
    rewrite (starts_with_skip _ _ Hx), IH. now rewrite orb_assoc.
Qed.

Lemma decimal_digits n : forallb digit (decimal n) = true.
Proof.
  unfold decimal. generalize (Nat.to_uint n). intros d.
  induction d; simpl; try reflexivity; exact IHd.
Qed.

Lemma digits_no_marker s : forallb digit s = true -> contains marker s = false.
Proof.
  induction s as [|x s IH]; [reflexivity|]. cbn [forallb contains].
  intros H. apply andb_true_iff in H as [Hx Hs]. rewrite (IH Hs), orb_false_r.
  rewrite marker_chars. cbn [starts_with].
  destruct (N.eqb_spec x 67) as [->|]; [discriminate Hx | reflexivity].
Qed.

Lemma not_in_marker_32 : ~ In 32%N marker.
Proof. now apply space_not_in_marker. Qed.

Lemma not_in_marker_10 : ~ In 10%N marker.
Proof. now apply space_not_in_marker. Qed.

Lemma contains_header n t :
  contains marker (page_header n ++ t) = contains marker t.
Proof.
  rewrite page_header_chars.
  rewrite (contains_split _ _ not_in_marker_32).
  rewrite (contains_split _ _ not_in_marker_32).
  rewrite (contains_split _ _ not_in_marker_10).
  now rewrite (digits_no_marker _ (decimal_digits _)).
Qed.

Lemma contains_chunk n text rest :
  contains marker (page_chunk n text ++ rest)
  = contains marker text || contains marker rest.
Proof.
  rewrite page_chunk_header, <- !app_assoc, contains_header.
  unfold LF. cbn [app]. rewrite (contains_split _ _ not_in_marker_10).
  change (10%N :: rest) with ([] ++ 10%N :: rest).
  now rewrite (contains_split _ _ not_in_marker_10).
Qed.

Lemma contains_pages pl pages : forall n,
  contains marker (pages_text pl pages n)
  = existsb (fun page => contains marker (get_text pl page)) pages.
Proof.
  induction pages as [|pg pages IH]; intros n; [reflexivity|].
  cbn [pages_text existsb]. now rewrite contains_chunk, IH.
Qed.

Lemma rows_no_marker text : contains marker text = false -> rows text = [].
Proof.
  intros H. unfold rows, re_split.
  rewrite split_no_marker by now apply contains_false.
  simpl. rewrite app_nil_r. now apply record_of_no_marker.
Qed.

(** X9. The text made from a document holds the marker exactly when the
    text of one of its pages does: the page headers and the blank lines
    between the pages add none. So a document without the marker on any
    page yields no row. *)
Theorem pdf_text_markers doc preserve_layout :
  contains marker (pdf_bytes_to_text doc preserve_layout)
  = existsb (fun page => contains marker (get_text preserve_layout page)) doc
  /\ (existsb (fun page => contains marker (get_text preserve_layout page)) doc
      = false ->
      parse_notes (pdf_bytes_to_text doc preserve_layout) = Ok []).
Proof.
  assert (H : contains marker (pdf_bytes_to_text doc preserve_layout)
              = existsb (fun page => contains marker (get_text preserve_layout page))
                        doc)
    by (rewrite pdf_text_pages; apply contains_pages).
  split; [exact H|]. intros Hn. rewrite parse_notes_rows. f_equal.
  apply rows_no_marker. now rewrite H.
Qed.

Lemma pdf_text_markers_witness :
  parse_notes
    (pdf_bytes_to_text
       [sample_page (py "Cover sheet"); sample_page (py "Cli");
        sample_page (py "ent: not a marker")] true)
  = Ok [].
Proof. apply (proj2 (pdf_text_markers _ true)). reflexivity. Defined.

Lemma cut_free_header n t : cut_free (page_header n) t.
Proof.
  assert (E : page_header n
              = (py "--- Page " ++ decimal (n + 1) ++ py " ---") ++ [10%N])
    by (unfold page_header, LF; now rewrite <- !app_assoc).
  assert (Hc : contains marker (page_header n) = false).
  { rewrite <- (app_nil_r (page_header n)). now rewrite contains_header. }
  rewrite E in *. now apply cut_free_closed; [exact not_in_marker_10|].
Qed.

Lemma rows_app a b :
  starts_with marker b = true -> rows (a ++ b) = rows a ++ rows b.
Proof.
  intros H. pose proof (parse_notes_app a b H) as E.
  rewrite parse_notes_rows in E. now injection E.
Qed.

Lemma rows_trailing text w :
  forallb isspace w = true -> rows (text ++ w) = rows text.
Proof. intros H. unfold rows, re_split. now apply rows_trailing_space. Qed.

(** X10. For a document of one page the rows are those of the text of the
    page: the header in front and the blank line behind are not seen. *)
Theorem single_page_rows page preserve_layout :
  parse_notes (pdf_bytes_to_text [page] preserve_layout)
  = parse_notes (get_text preserve_layout page).
Proof.
  rewrite !parse_notes_rows, pdf_text_pages. f_equal.
  cbn [pages_text]. rewrite app_nil_r, page_chunk_header.
  rewrite (rows_skip_prefix _ _ (cut_free_header _ _)).
  now apply rows_trailing.
Qed.

(** The pages after the header of the first one. *)
Lemma pages_text_rows pl : forall pages n,
  forallb (fun page => starts_with marker (get_text pl page)) pages = true ->
  rows (pages_text pl pages n) = rows_by_page (map (get_text pl) pages) n.
Proof.
  induction pages as [|pg pages IH]; intros n H; [reflexivity|].
  cbn [forallb] in H. apply andb_true_iff in H as [Hpg Hpages].
  destruct pages as [|pg2 pages].
  - cbn [pages_text map rows_by_page]. rewrite page_chunk_header.
    rewrite <- !app_assoc.
    rewrite (rows_skip_prefix _ _ (cut_free_header _ _)).
    rewrite app_nil_r. now apply rows_trailing.
  - specialize (IH (S n) Hpages).
    change (rows_by_page (map (get_text pl) (pg :: pg2 :: pages)) n)
      with (rows (get_text pl pg ++ LF ++ LF ++ page_header (S n))
            ++ rows_by_page (map (get_text pl) (pg2 :: pages)) (S n)).
    rewrite <- IH.
    change (pages_text pl (pg :: pg2 :: pages) n)
      with (page_chunk n (get_text pl pg) ++ pages_text pl (pg2 :: pages) (S n)).
    rewrite page_chunk_header, <- !app_assoc.
    rewrite (rows_skip_prefix _ _ (cut_free_header _ _)).
    change (pages_text pl (pg2 :: pages) (S n))
      with (page_chunk (S n) (get_text pl pg2)
            ++ pages_text pl pages (S (S n))).
    rewrite page_chunk_header, <- !app_assoc.
    set (tail := get_text pl pg2 ++ LF ++ LF ++ pages_text pl pages (S (S n))).
    replace (get_text pl pg ++ LF ++ LF ++ page_header (S n) ++ tail)
      with ((get_text pl pg ++ LF ++ LF ++ page_header (S n)) ++ tail)
      by now rewrite <- !app_assoc.
    rewrite rows_app.
    + f_equal. now rewrite (rows_skip_prefix _ _ (cut_free_header _ _)).
    + unfold tail. apply starts_with_app_l.
      cbn [forallb] in Hpages. now apply andb_true_iff in Hpages as [H2 _].
Qed.

(** X11. When the text of every page starts with the marker, the rows of
    the document are the rows of the pages taken one by one in order,
    where each page but the last is read with the blank line and the
    header line of the next page at its end. *)
Theorem rows_page_by_page doc preserve_layout :
  forallb (fun page => starts_with marker (get_text preserve_layout page)) doc
  = true ->
  parse_notes (pdf_bytes_to_text doc preserve_layout)
  = Ok (rows_by_page (map (get_text preserve_layout) doc) 0).
Proof.
  intros H. rewrite parse_notes_rows, pdf_text_pages. f_equal.
  now apply pages_text_rows.
Qed.

Lemma rows_page_by_page_witness :
  parse_notes (pdf_bytes_to_text [sample_page ann_first; sample_page ann_second]
                 false)
  = Ok (rows_by_page (map (get_text false)
                        [sample_page ann_first; sample_page ann_second]) 0).
Proof. apply rows_page_by_page. reflexivity. Defined.

Lemma rows_length text : length (rows text) <= count_at marker text.
Proof.
  unfold rows. destruct (re_split_head text) as [b0 [bs [E H0]]].
  pose proof (split_from_length text []) as Hl. unfold re_split in *.
  rewrite E in *. simpl in *. rewrite (record_of_no_marker _ H0). simpl.
  pose proof (flat_map_record_of_length bs). lia.
Qed.

Lemma count_split x : ~ In x marker -> forall a b,
  count_at marker (a ++ x :: b) = count_at marker a + count_at marker b.
Proof.
  intros Hx a b. induction a as [|y a IH].
  - cbn [app count_at]. change (x :: b) with ([] ++ x :: b) at 1.
    rewrite (starts_with_skip _ _ Hx). reflexivity.
  - change ((y :: a) ++ x :: b) with (y :: (a ++ x :: b)). cbn [count_at].
    change (y :: a ++ x :: b) with ((y :: a) ++ x :: b).
    rewrite (starts_with_skip _ _ Hx), IH. lia.
Qed.

Lemma contains_count s : contains marker s = false -> count_at marker s = 0.
Proof.
  induction s as [|x s IH]; [reflexivity|]. cbn [contains count_at].
  intros H. apply orb_false_iff in H as [-> H]. now rewrite IH.
Qed.

Lemma count_header n t :
  count_at marker (page_header n ++ t) = count_at marker t.
Proof.
  rewrite page_header_chars.
  rewrite (count_split _ not_in_marker_32).
  rewrite (count_split _ not_in_marker_32).
  rewrite (count_split _ not_in_marker_10).
  rewrite (contains_count _ (digits_no_marker _ (decimal_digits _))).
  reflexivity.
Qed.

Lemma count_chunk n text rest :
  count_at marker (page_chunk n text ++ rest)
  = count_at marker text + count_at marker rest.
Proof.
  rewrite page_chunk_header, <- !app_assoc, count_header.
  unfold LF. cbn [app]. rewrite (count_split _ not_in_marker_10).
  change (10%N :: rest) with ([] ++ 10%N :: rest).
  now rewrite (count_split _ not_in_marker_10).
Qed.

Lemma count_pages pl pages : forall n,
  count_at marker (pages_text pl pages n)
  = list_sum (map (fun page => count_at marker (get_text pl page)) pages).
Proof.
  induction pages as [|pg pages IH]; intros n; [reflexivity|].
  cbn [pages_text map list_sum]. now rewrite count_chunk, IH.
Qed.

(** X12. A document yields at most as many rows as there are places on
    its pages where the marker starts: the headers and blank lines that
    join the pages add no marker and hide none. *)
Theorem document_rows_at_most_markers doc preserve_layout :
  count_at marker (pdf_bytes_to_text doc preserve_layout)
  = list_sum (map (fun page => count_at marker (get_text preserve_layout page))
                  doc)
  /\ (forall rs,
        parse_notes (pdf_bytes_to_text doc preserve_layout) = Ok rs ->
        length rs
        <= list_sum (map (fun page =>
                            count_at marker (get_text preserve_layout page))
                         doc)).
Proof.
  assert (H : count_at marker (pdf_bytes_to_text doc preserve_layout)
              = list_sum (map (fun page =>
                                 count_at marker (get_text preserve_layout page))
                              doc))
    by (rewrite pdf_text_pages; apply count_pages).
  split; [exact H|]. intros rs. rewrite parse_notes_rows. intros [= <-].
  rewrite <- H. apply rows_length.
Qed.

Lemma document_rows_at_most_markers_witness :
  length [ann_record (py "2024/01/15"); ann_record (py "2024/02/20")]
  <= list_sum
       (map (fun page => count_at marker (get_text true page))
            [sample_page (ann_first ++ nameless_block); sample_page ann_second]).
Proof.
  apply (proj2 (document_rows_at_most_markers _ true)).
  vm_compute. reflexivity.
Defined.

(** ** The [Date] and [Session Time] fields at their markers *)

(** The [Date] field: a string, empty or the leftmost date of the block. *)
Lemma date_field_leftmost b r :
  process_block b = Ok (Some r) ->
  (exists d, Date r = Some d /\ (d = [] \/ date_shape d = true))
  /\ (forall d, Date r = Some d -> d <> [] ->
        exists pre suf,
          strip b = pre ++ suf /\ date_here suf d
          /\ forall pre' suf' d',
               strip b = pre' ++ suf' -> date_here suf' d' ->
               length pre <= length pre')
  /\ (forall pre suf d,
        strip b = pre ++ suf -> date_here suf d ->
        exists d', Date r = Some d' /\ date_shape d' = true)
  /\ ((forall pre suf d, strip b = pre ++ suf -> ~ date_here suf d) ->
      Date r = Some [])
  /\ (contains (py "Date:") (strip b) = false -> Date r = Some []).
Proof.
  intros Hr. apply process_block_fields in Hr as [_ [_ [-> _]]].
  destruct (re_search false date_re (strip b)) as [mt|] eqn:E.
  - destruct (date_of_match _ _ E) as [d [pre [suf [Hd [Eb [Hh Hmin]]]]]].
    rewrite Hd. repeat split.
    + exists d. split; [reflexivity|]. right. now apply date_here_shape in Hh.
    + intros d0 [= <-] _. now exists pre, suf.
    + intros _ _ _ _ _. exists d. split; [reflexivity|].
      now apply date_here_shape in Hh.
    + intros Hno. exfalso. exact (Hno pre suf d Eb Hh).
    + intros Hc. apply contains_false in Hc. exfalso. apply Hc.
      unfold date_re in E. now apply re_search_occurs in E.
  - rewrite (date_of_no_match _ E). repeat split.
    + exists []. split; [reflexivity | now left].
    + intros d [= <-] Hne. congruence.
    + intros pre suf d Eb Hh. apply date_here_attempt in Hh as [rest Hh].
      rewrite (re_search_none _ _ _ E _ _ Eb) in Hh. discriminate.
Qed.

Lemma date_first_marker block pre rest :
  first_lit false date_marker block = Some (pre, rest) ->
  date_shape (firstn 10 (lstrip rest)) = true ->
  date_of block = Some (firstn 10 (lstrip rest)).
Proof.
  intros H Hd. unfold date_of, date_re. fold date_marker.
  destruct (re_search_first_lit false date_marker
              [Rep isspace 0 None; Grp date_shape_re] _ _ _ H)
    as [mm [_ [Hm ->]]].
  apply strip_lit_exact in Hm.
  rewrite re_search_unfold.
  change (seq [lit date_marker; Rep isspace 0 None; Grp date_shape_re])
    with date_re.
  rewrite date_attempt.
  assert (E : strip_lit false (py "Date:") (mm ++ rest) = Some rest)
    by now apply strip_lit_exact.
  now rewrite E, Hd.
Qed.

(** C7 (as amended). The [Date] field of a row is a string. It is not
    empty only as ten characters of the shape dddd/dd/dd that stand right
    after [Date:] and optional whitespace, at the leftmost such place of
    the block; what follows the ten characters is not looked at. When the
    ten characters after the first [Date:] and its whitespace have the
    shape, they are the field. When the block has no such place, in
    particular no [Date:] marker, the field is empty. *)
Theorem date_field b r :
  process_block b = Ok (Some r) ->
  (exists d, Date r = Some d /\ (d = [] \/ date_shape d = true))
  /\ (forall d, Date r = Some d -> d <> [] ->
        exists pre suf,
          strip b = pre ++ suf /\ date_here suf d
          /\ forall pre' suf' d',
               strip b = pre' ++ suf' -> date_here suf' d' ->
               length pre <= length pre')
  /\ (forall pre suf d,
        strip b = pre ++ suf -> date_here suf d ->
        exists d', Date r = Some d' /\ date_shape d' = true)
  /\ ((forall pre suf d, strip b = pre ++ suf -> ~ date_here suf d) ->
      Date r = Some [])
  /\ (contains (py "Date:") (strip b) = false -> Date r = Some [])
  /\ (forall pre rest,
        first_lit false date_marker (strip b) = Some (pre, rest) ->
        date_shape (firstn 10 (lstrip rest)) = true ->
        Date r = Some (firstn 10 (lstrip rest))).
Proof.
  intros Hr.
  destruct (date_field_leftmost b r Hr) as [H1 [H2 [H3 [H4 H5]]]].
  repeat (split; [assumption|]).
  intros pre rest Hf Hd. apply process_block_fields in Hr as [_ [_ [-> _]]].
  exact (date_first_marker _ pre rest Hf Hd).
Qed.

Lemma date_field_witness :
  Date {| Client := py "A"; Rendering_Provider := [];
          Date := Some (py "2024/01/15"); Session_Time := [] |}
  = Some (firstn 10 (lstrip (py " 2024/01/155"))).
Proof.
  refine (proj2 (proj2 (proj2 (proj2 (proj2
            (date_field long_day_block _ _)))))
            (py "Client: A" ++ LF) (py " 2024/01/155") _ _);
    vm_compute; reflexivity.
Defined.

(** C7 as stated fails: the token after [Date:] is 2024/01/155, which
    does not have the shape, and the field is not empty: it holds the
    first ten characters of the token. *)
Lemma date_token_not_exact :
  first_lit false date_marker (strip long_day_block)
  = Some (py "Client: A" ++ LF, py " 2024/01/155")
  /\ token (lstrip (py " 2024/01/155")) = py "2024/01/155"
  /\ date_shape (py "2024/01/155") = false
  /\ (exists r, process_block long_day_block = Ok (Some r)
                /\ Date r = Some (py "2024/01/15"))
  /\ ~ (forall b r pre rest,
          process_block b = Ok (Some r) ->
          first_lit false date_marker (strip b) = Some (pre, rest) ->
          Date r = Some (if date_shape (token (lstrip rest))
                         then token (lstrip rest) else [])).
Proof.
  split; [reflexivity|]. split; [reflexivity|]. split; [reflexivity|]. split.
  - eexists. split; [vm_compute; reflexivity | reflexivity].
  - intros H.
    specialize (H long_day_block
                  {| Client := py "A"; Rendering_Provider := [];
                     Date := Some (py "2024/01/15"); Session_Time := [] |}
                  (py "Client: A" ++ LF) (py " 2024/01/155")).
    assert (E : Some (py "2024/01/15") = Some (@nil char));
      [|discriminate E].
    apply H; vm_compute; reflexivity.
Qed.

(** A greedy repetition keeps the run [w] when the rest of the pattern
    matches after it and the run cannot go further. *)
Lemma rep_greedy_run p (k : cont) g m : forall w rest lo hi,
  forallb p w = true -> lo <= length w ->
  match hi with Some n => length w <= n | None => True end ->
  match rest with x :: _ => p x = false | [] => True end
  \/ hi = Some (length w) ->
  k rest g = Some m ->
  rep_greedy p lo hi (w ++ rest) g k = Some m.
Proof.
  induction w as [|y w IH]; intros rest lo hi Hw Hlo Hhi Hstop Hk.
  - simpl in Hlo. assert (lo = 0) by lia. subst lo. cbn [app].
    destruct rest as [|x rest]; [exact Hk|]. cbn [rep_greedy].
    destruct Hstop as [Hx | ->]; [now rewrite Hx|].
    simpl. now rewrite andb_false_r.
  - cbn [forallb] in Hw. apply andb_true_iff in Hw as [Hy Hw].
    cbn [app rep_greedy]. rewrite Hy.
    assert (Hm : may_take hi = true)
      by (destruct hi as [[|n]|]; simpl in *; [lia | reflexivity..]).
    rewrite Hm. cbn [andb].
    rewrite (IH rest (pred lo) (option_map pred hi)); [reflexivity | exact Hw | | | | exact Hk].
    + simpl in Hlo. lia.
    + destruct hi as [n|]; simpl in *; [lia | exact I].
    + destruct Hstop as [Hx | ->]; [now left | now right].
Qed.

Lemma ieq_A x : ieq 65%N x = (ascii_lower x =? 97)%N.
Proof.
  unfold ieq. cbv zeta. change (ascii_lower 65%N) with 97%N.
  replace (97 =? 105)%N with false by reflexivity.
  replace (97 =? 115)%N with false by reflexivity.
  replace (97 =? 107)%N with false by reflexivity.
  cbn [andb]. now rewrite !orb_false_r.
Qed.

Lemma ieq_P x : ieq 80%N x = (ascii_lower x =? 112)%N.
Proof.
  unfold ieq. cbv zeta. change (ascii_lower 80%N) with 112%N.
  replace (112 =? 105)%N with false by reflexivity.
  replace (112 =? 115)%N with false by reflexivity.
  replace (112 =? 107)%N with false by reflexivity.
  cbn [andb]. now rewrite !orb_false_r.
Qed.

Lemma ieq_M x : ieq 77%N x = (ascii_lower x =? 109)%N.
Proof.
  unfold ieq. cbv zeta. change (ascii_lower 77%N) with 109%N.
  replace (109 =? 105)%N with false by reflexivity.
  replace (109 =? 115)%N with false by reflexivity.
  replace (109 =? 107)%N with false by reflexivity.
  cbn [andb]. now rewrite !orb_false_r.
Qed.

(** [(?:AM|PM)?] in front of AM or PM in any case reads it. *)
Lemma meridiem_read ap s g (k : cont) m :
  meridiem ap = true -> k s g = Some m ->
  rmatch true meridiem_re (ap ++ s) g k = Some m.
Proof.
  destruct ap as [|x [|y [|z ap]]]; try discriminate. cbn [meridiem].
  intros H Hk. apply andb_true_iff in H as [Hx Hy].
  unfold meridiem_re. cbn [rmatch]. rewrite !rmatch_lit.
  change (py "AM") with [65; 77]%N. change (py "PM") with [80; 77]%N.
  cbn [app strip_lit chr_eq]. rewrite ieq_A, ieq_P, ieq_M, Hy.
  apply orb_true_iff in Hx as [Hx|Hx]; rewrite Hx.
  - now rewrite Hk.
  - destruct (ascii_lower x =? 97)%N; now rewrite Hk.
Qed.

(** [(?:AM|PM)?] in front of anything else reads nothing. *)
Lemma meridiem_skip s g (k : cont) :
  not_ap_start s = true -> rmatch true meridiem_re s g k = k s g.
Proof.
  intros H. unfold meridiem_re. cbn [rmatch]. rewrite !rmatch_lit.
  change (py "AM") with [65; 77]%N. change (py "PM") with [80; 77]%N.
  destruct s as [|x s]; [reflexivity|].
  cbn [strip_lit chr_eq]. rewrite ieq_A, ieq_P.
  cbn [not_ap_start] in H. apply negb_true_iff, orb_false_iff in H as [-> ->].
  reflexivity.
Qed.

Lemma hour_digits h :
  hour h = true -> forallb digit h = true /\ 1 <= length h <= 2.
Proof.
  destruct h as [|a [|b [|c h]]]; simpl; try discriminate.
  - intros ->. split; [reflexivity | lia].
  - intros H. apply andb_true_iff in H as [-> ->]. split; [reflexivity | lia].
Qed.

Lemma minute_digits mi :
  minute mi = true -> forallb digit mi = true /\ length mi = 2.
Proof.
  destruct mi as [|a [|b [|c mi]]]; simpl; try discriminate.
  intros H. apply andb_true_iff in H as [-> ->]. now split.
Qed.

Lemma lstrip_stops s :
  match lstrip s with x :: _ => isspace x = false | [] => True end.
Proof.
  destruct (lstrip s) as [|x l] eqn:E; [exact I|]. now apply lstrip_head in E.
Qed.

Lemma ap_not_space x :
  ((ascii_lower x =? 97) || (ascii_lower x =? 112))%N = true ->
  isspace x = false.
Proof.
  intros H. apply orb_true_iff in H as [H|H]; apply N.eqb_eq in H;
    apply ascii_lower_cases in H as [->|H]; try reflexivity.
  - assert (x = 65%N) by lia. now subst.
  - assert (x = 80%N) by lia. now subst.
Qed.

Lemma hour_head h s :
  hour h = true ->
  match h ++ s with x :: _ => isspace x = false | [] => True end.
Proof.
  destruct h as [|a [|b [|c h]]]; simpl; try discriminate.
  - apply digit_not_space.
  - intros H. apply andb_true_iff in H as [H _]. now apply digit_not_space.
Qed.

(** The pattern of a clock time reads a well-formed clock time; without
    AM or PM it also reads the whitespace that follows. *)
Lemma clock_match c s g (k : cont) m :
  clock_ok c = true ->
  (is_empty (ck_meridiem c) = true -> not_ap_start (lstrip s) = true) ->
  k (if is_empty (ck_meridiem c) then lstrip s else s) g = Some m ->
  rmatch true clock_re (clock_text c ++ s) g k = Some m.
Proof.
  destruct c as [h mi w ap]. unfold clock_ok, clock_text.
  cbn [ck_hour ck_minute ck_space ck_meridiem].
  intros Hok Hs Hk. apply andb_true_iff in Hok as [Hok Hrest].
  apply andb_true_iff in Hok as [Hh Hm].
  destruct (hour_digits _ Hh) as [Hhd Hhl].
  destruct (minute_digits _ Hm) as [Hmd Hml].
  unfold clock_re. rewrite rmatch_seq_cons. cbn [rmatch].
  rewrite <- !app_assoc. cbn [app].
  apply rep_greedy_run; [exact Hhd | lia | lia | left; reflexivity |].
  rewrite rmatch_seq_cons. cbn [rmatch chr_eq].
  change (ieq 58%N 58%N) with true. cbv iota.
  rewrite rmatch_seq_cons. cbn [rmatch].
  apply rep_greedy_run; [exact Hmd | lia | lia | right; now rewrite Hml |].
  rewrite rmatch_seq_cons. cbn [rmatch].
  change (Opt (Alt (lit (py "AM")) (lit (py "PM")))) with meridiem_re.
  destruct ap as [|a ap]; cbn [is_empty] in *.
  - destruct w as [|y w]; [|discriminate Hrest]. cbn [app].
    rewrite <- (take_drop_while isspace s). fold (lstrip s).
    apply rep_greedy_run;
      [apply take_while_all | lia | exact I | left; apply lstrip_stops |].
    rewrite rmatch_seq_cons, meridiem_skip by now apply Hs. exact Hk.
  - apply andb_true_iff in Hrest as [Hw Hap].
    apply rep_greedy_run; [exact Hw | lia | exact I | |].
    + left. cbn [app]. apply ap_not_space.
      destruct ap as [|b [|z ap]]; try discriminate Hap.
      cbn [meridiem] in Hap. now apply andb_true_iff in Hap as [Hap _].
    + rewrite rmatch_seq_cons. now apply meridiem_read.
Qed.

(** The pattern of a time range reads a well-formed range that ends at
    [post]. *)
Lemma range_match c1 w2 w3 c2 post g (k : cont) m :
  clock_ok c1 = true -> forallb isspace w2 = true ->
  forallb isspace w3 = true -> clock_ok c2 = true ->
  range_end c2 post = true ->
  k post g = Some m ->
  rmatch true range_re (range_text c1 w2 w3 c2 ++ post) g k = Some m.
Proof.
  intros H1 Hw2 Hw3 H2 He Hk.
  assert (Hmid : forall w, forallb isspace w = true ->
            rmatch true
              (seq [Rep isspace 0 None; Chr 45%N; Rep isspace 0 None; clock_re])
              (w ++ 45%N :: w3 ++ clock_text c2 ++ post) g k = Some m).
  { intros w Hw. rewrite rmatch_seq_cons. cbn [rmatch].
    apply rep_greedy_run; [exact Hw | lia | exact I | left; reflexivity |].
    rewrite rmatch_seq_cons. cbn [rmatch chr_eq].
    change (ieq 45%N 45%N) with true. cbv iota.
    rewrite rmatch_seq_cons. cbn [rmatch].
    apply rep_greedy_run; [exact Hw3 | lia | exact I | |].
    - left. unfold clock_text. rewrite <- !app_assoc. apply hour_head.
      unfold clock_ok in H2. apply andb_true_iff in H2 as [H2 _].
      now apply andb_true_iff in H2 as [H2 _].
    - rewrite rmatch_seq_cons. apply clock_match; [exact H2 | |].
      + intros Hemp. unfold range_end in He. rewrite Hemp in He.
        cbn [negb orb] in He. destruct post as [|x post]; [reflexivity|].
        cbn [closed_start] in He. apply andb_true_iff in He as [Hx He].
        apply negb_true_iff in Hx. unfold lstrip.
        now rewrite (drop_while_head _ _ _ Hx).
      + destruct (is_empty (ck_meridiem c2)) eqn:Hemp; [|exact Hk].
        unfold range_end in He. rewrite Hemp in He. cbn [negb orb] in He.
        destruct post as [|x post]; [exact Hk|].
        cbn [closed_start] in He. apply andb_true_iff in He as [Hx _].
        apply negb_true_iff in Hx. unfold lstrip.
        rewrite (drop_while_head _ _ _ Hx). exact Hk. }
  unfold range_re, range_text. rewrite rmatch_seq_cons.
  rewrite <- !app_assoc. cbn [app].
  apply clock_match; [exact H1 | |].
  - intros _. rewrite (lstrip_app_space _ _ Hw2). unfold lstrip.
    rewrite drop_while_head by reflexivity. reflexivity.
  - destruct (is_empty (ck_meridiem c1)).
    + rewrite (lstrip_app_space _ _ Hw2). unfold lstrip.
      rewrite drop_while_head by reflexivity. now apply (Hmid []).
    + now apply Hmid.
Qed.

(** What follows the marker, when it is whitespace and a well-formed
    range: the group is the range. *)
Lemma session_tail_range ws c1 w2 w3 c2 post :
  forallb isspace ws = true ->
  clock_ok c1 = true -> forallb isspace w2 = true ->
  forallb isspace w3 = true -> clock_ok c2 = true ->
  range_end c2 post = true ->
  rmatch true session_tail (ws ++ range_text c1 w2 w3 c2 ++ post) None accept
  = Some (post, Some (range_text c1 w2 w3 c2)).
Proof.
  intros Hws H1 Hw2 Hw3 H2 He.
  unfold session_tail. rewrite rmatch_seq_cons. cbn [rmatch].
  apply rep_greedy_run; [exact Hws | lia | exact I | |].
  - left. unfold range_text, clock_text. rewrite <- !app_assoc. apply hour_head.
    unfold clock_ok in H1. apply andb_true_iff in H1 as [H1 _].
    now apply andb_true_iff in H1 as [H1 _].
  - cbn [seq fold_right rmatch].
    rewrite (range_match c1 w2 w3 c2 post None _
               (post, Some (range_text c1 w2 w3 c2)) H1 Hw2 Hw3 H2 He);
      [reflexivity|].
    unfold accept. now rewrite firstn_consumed.
Qed.

Lemma first_lit_unfold ic m s :
  first_lit ic m s
  = match strip_lit ic m s with
    | Some rest => Some ([], rest)
    | None =>
        match s with
        | [] => None
        | x :: s' =>
            match first_lit ic m s' with
            | Some (pre, rest) => Some (x :: pre, rest)
            | None => None
            end
        end
    end.
Proof. destruct s; reflexivity. Qed.

(** With no marker inside [pre], the marker written in any case after
    [pre] is the first one. *)
Lemma first_lit_case m rest : forall pre,
  same_ignoring_case m session_marker ->
  first_lit true session_marker pre = None ->
  first_lit true session_marker (pre ++ m ++ rest) = Some (pre, rest).
Proof.
  intros pre Hm. induction pre as [|y pre IH]; intros Hp.
  - cbn [app]. rewrite first_lit_unfold.
    now rewrite (strip_lit_same_case _ _ rest Hm).
  - rewrite first_lit_unfold in Hp.
    destruct (strip_lit true session_marker (y :: pre)) eqn:E; [discriminate|].
    destruct (first_lit true session_marker pre) as [[p r]|] eqn:Ef;
      [discriminate|].
    rewrite first_lit_unfold.
    assert (Hne : session_marker <> []) by discriminate.
    assert (Hl : length session_marker <= length m)
      by (rewrite (case_variant_length _ Hm); apply Nat.le_refl).
    assert (Hy : y :: pre <> []) by discriminate.
    rewrite (strip_lit_straddle true m rest (y :: pre) session_marker Hy Hne Hl
               (case_variant_colon _ Hm)).
    rewrite E. cbn [option_map app]. now rewrite IH.
Qed.

(** The field is the group of what follows the first marker. *)
Lemma session_time_at_first block pre rest :
  first_lit true session_marker block = Some (pre, rest) ->
  session_time_of block
  = match rmatch true session_tail rest None accept with
    | Some (_, Some t) => t
    | _ => []
    end.
Proof.
  intros H. unfold session_time_of, session_re. fold session_marker.
  destruct (re_search_first_lit true session_marker
              [Rep isspace 0 None; Opt (Alt (Grp range_re) (Chr 45%N))]
              _ _ _ H) as [mm [_ [Hm ->]]].
  rewrite re_search_unfold, rmatch_seq_cons, rmatch_lit, Hm.
  fold session_tail.
  destruct (session_tail_group rest) as [s' [g [-> _]]]. reflexivity.
Qed.

Lemma session_range_any_case pre m ws c1 w2 w3 c2 post :
  same_ignoring_case m session_marker ->
  first_lit true session_marker pre = None ->
  forallb isspace ws = true ->
  clock_ok c1 = true -> forallb isspace w2 = true ->
  forallb isspace w3 = true -> clock_ok c2 = true ->
  range_end c2 post = true ->
  session_time_of (pre ++ m ++ ws ++ range_text c1 w2 w3 c2 ++ post)
  = range_text c1 w2 w3 c2.
Proof.
  intros Hm Hp Hws H1 Hw2 Hw3 H2 He.
  rewrite (session_time_at_first _ pre
             (ws ++ range_text c1 w2 w3 c2 ++ post)
             (first_lit_case m _ pre Hm Hp)).
  now rewrite session_tail_range.
Qed.

(** The marker in any case gives the same field; the other markers are
    read as written. *)
Lemma session_marker_cases :
  (forall pre m post,
     same_ignoring_case m (py "Session Time:") ->
     session_time_of (pre ++ m ++ post)
     = session_time_of (pre ++ py "Session Time:" ++ post))
  /\ (forall b,
        contains (py "Client:") (strip b) = false -> process_block b = Ok None)
  /\ (forall b r,
        process_block b = Ok (Some r) ->
        contains (py "Rendering Provider:") (strip b) = false ->
        Rendering_Provider r = [])
  /\ (forall b r,
        process_block b = Ok (Some r) ->
        contains (py "Date:") (strip b) = false ->
        Date r = Some []).
Proof.
  split; [exact session_time_case|]. split; [|split].
  - intros b Hc. apply process_block_no_client.
    destruct (client_name_of_ok (strip b)) as [v Hv]. rewrite Hv. f_equal.
    unfold client_name_of, client_re in Hv.
    exact (group1_strip_no_match _ _ _ _ Hv Hc).
  - intros b r Hr Hc. apply process_block_fields in Hr as [_ [Hp _]].
    unfold provider_of, provider_re in Hp.
    exact (group1_strip_no_match _ _ _ _ Hp Hc).
  - intros b r Hr Hc. apply process_block_fields in Hr as [_ [_ [-> _]]].
    apply date_of_no_match. unfold date_re.
    apply re_search_no_occurrence. now apply contains_false.
Qed.

(** C10. The [Session Time] marker is read in any case. When the first
    marker of a block, written in any case of its letters, is followed
    by optional whitespace and a time range (two clock times around a
    dash, each with an optional AM or PM in any case) that ends with AM
    or PM or in front of a text that cannot continue it, the field is
    that range; and with the marker written in another case the field is
    the same as with [Session Time:]. The other three markers are read
    as written only: a block without [Client:] yields no row, and
    without [Rendering Provider:] or [Date:] the field is empty. *)
Theorem session_marker_any_case :
  (forall pre m ws c1 w2 w3 c2 post,
     same_ignoring_case m (py "Session Time:") ->
     first_lit true (py "Session Time:") pre = None ->
     forallb isspace ws = true ->
     clock_ok c1 = true -> forallb isspace w2 = true ->
     forallb isspace w3 = true -> clock_ok c2 = true ->
     range_end c2 post = true ->
     session_time_of (pre ++ m ++ ws ++ range_text c1 w2 w3 c2 ++ post)
     = range_text c1 w2 w3 c2)
  /\ (forall pre m post,
     same_ignoring_case m (py "Session Time:") ->
     session_time_of (pre ++ m ++ post)
     = session_time_of (pre ++ py "Session Time:" ++ post))
  /\ (forall b,
        contains (py "Client:") (strip b) = false -> process_block b = Ok None)
  /\ (forall b r,
        process_block b = Ok (Some r) ->
        contains (py "Rendering Provider:") (strip b) = false ->
        Rendering_Provider r = [])
  /\ (forall b r,
        process_block b = Ok (Some r) ->
        contains (py "Date:") (strip b) = false ->
        Date r = Some []).
Proof.
  split; [exact session_range_any_case | exact session_marker_cases].
Qed.

Lemma session_marker_any_case_witness :
  session_time_of
    ((py "Client: A" ++ LF) ++ py "SESSION time:" ++ py "  "
     ++ range_text
          {| ck_hour := py "9"; ck_minute := py "00"; ck_space := py " ";
             ck_meridiem := py "am" |}
          (py " ") (py " ")
          {| ck_hour := py "10"; ck_minute := py "00"; ck_space := [];
             ck_meridiem := [] |}
     ++ [])
  = py "9:00 am - 10:00".
Proof.
  apply (proj1 session_marker_any_case); reflexivity.
Defined.
